(** * OverPass app-icon generator ([create_icon.py])

    A shallow embedding of the icon generator.  The script draws one fixed
    composition (vertical gradient, two pillars, a deck, the letters "OP",
    eight key badges) on a square canvas and saves it at ten sizes.

    What is modelled, and how:
    - Python [int] is [Z]; Python [float] is IEEE-754 binary64, taken from
      the Standard Library's executable specification [SpecFloat] (round to
      nearest, ties to even), so [int(16 * scale)] is computed bit for bit;
    - a colour is the tuple of its channels, a [list Z];
    - the Pillow canvas is its size together with the ordered list of the
      drawing calls made on it: rasterisation, font rendering and PNG
      encoding belong to the imaging library and are left to it;
    - the font files present on the machine and the text metrics are an
      explicit environment ([font_env]); [ImageFont.truetype] may raise, which
      the script catches, and is an [option];
    - [main] is the ordered trace of its effects (directory creation, output
      lines, files saved), interpreted on a small file store. *)

From stdpp Require Import gmap strings list pretty.
From Stdlib Require Import ZArith QArith Qabs Qround Qpower Lia Lqa Ascii.
From Stdlib Require Floats.SpecFloat.

#[local] Open Scope Z_scope.

(** ** Python numbers *)

Module PyFloat.

(** binary64 *)
Definition prec : Z := 53.
Definition emax : Z := 1024.

Abbreviation float := SpecFloat.spec_float.

(** [float(n)] for an [int]: the nearest double (exact below [2^53]).
    Python raises [OverflowError] where this gives an infinity, from
    [2^1024] on. *)
Definition of_int (n : Z) : float :=
  SpecFloat.binary_normalize prec emax n 0 false.

(** [a / b] on two [int]s: true division, the correctly rounded quotient
    of the two integers.  With [b = 0] Python raises [ZeroDivisionError];
    the script never divides by zero ([y / size] runs only for
    [0 <= y < size], and the other divisor is the literal 512). *)
Definition int_true_div (a b : Z) : float :=
  match b with
  | 0 => SpecFloat.S754_nan
  | _ =>
    match a with
    | 0 => SpecFloat.S754_zero (b <? 0)
    | _ =>
      let '(q, e, l) :=
        SpecFloat.SFdiv_core_binary prec emax (Z.abs a) 0 (Z.abs b) 0 in
      SpecFloat.binary_round_aux prec emax (xorb (a <? 0) (b <? 0)) q e l
    end
  end.

Definition mul : float -> float -> float := SpecFloat.SFmul prec emax.
Definition add : float -> float -> float := SpecFloat.SFadd prec emax.
Definition sub : float -> float -> float := SpecFloat.SFsub prec emax.

(** [int(x)]: truncation toward zero.  On an infinity or a NaN Python
    raises; for sizes below [2^31] no operand of [int] in the script is one
    (lemma [Rounding.int_operands_finite]). *)
Definition to_int (x : float) : Z :=
  match x with
  | SpecFloat.S754_finite s m e =>
    let v := match e with
             | Zneg p => Z.shiftr (Zpos m) (Zpos p)
             | _ => Z.shiftl (Zpos m) e
             end in
    if s then - v else v
  | _ => 0
  end.

(** [round(x)] of Python 3: nearest integer, ties to even.  The script
    never calls it; the specification's gradient formula does. *)
Definition round (x : float) : Z :=
  match x with
  | SpecFloat.S754_finite s m e =>
    let v := match e with
             | Zneg p =>
               let q := Z.shiftr (Zpos m) (Zpos p) in
               let r := Zpos m - Z.shiftl q (Zpos p) in
               match 2 * r ?= Z.shiftl 1 (Zpos p) with
               | Lt => q
               | Gt => q + 1
               | Eq => if Z.even q then q else q + 1
               end
             | _ => Z.shiftl (Zpos m) e
             end in
    if s then - v else v
  | _ => 0
  end.

(** The decimal literals of the script, as the doubles Python reads them
    as: [m * 2^e] is the double nearest to the decimal. *)
Definition lit_0_3 : float := SpecFloat.S754_finite false 5404319552844595 (-54).
Definition lit_0_7 : float := SpecFloat.S754_finite false 6305039478318694 (-53).
Definition lit_0_15 : float := SpecFloat.S754_finite false 5404319552844595 (-55).
Definition lit_0_25 : float := SpecFloat.S754_finite false 4503599627370496 (-54).
Definition lit_0_55 : float := SpecFloat.S754_finite false 4953959590107546 (-53).
Definition lit_0_75 : float := SpecFloat.S754_finite false 6755399441055744 (-53).
Definition lit_0_5 : float := SpecFloat.S754_finite false 4503599627370496 (-53).

(** The rational a finite double stands for. *)
Definition to_Q (x : float) : Q :=
  match x with
  | SpecFloat.S754_finite s m e =>
    let v := (inject_Z (Zpos m) * Qpower 2 e)%Q in
    if s then (- v)%Q else v
  | _ => 0%Q
  end.

End PyFloat.

Abbreviation float := SpecFloat.spec_float.

(** ** Colours and the palette *)

Definition color := list Z.

Definition SAPPHIRE_DARK : color := [38; 43; 64].
Definition SAPPHIRE_SLATE : color := [44; 68; 77].
Definition SAPPHIRE_NAVY : color := [6; 69; 127].
Definition SAPPHIRE_ROYAL : color := [4; 116; 196].
Definition SAPPHIRE_DUSTY : color := [83; 121; 174].
Definition SAPPHIRE_LIGHT : color := [168; 196; 236].
Definition WHITE : color := [255; 255; 255].

(** ** The imaging library, as far as the script uses it *)

Inductive font :=
  | TrueType (path : string) (size : Z)
  | DefaultFont.

#[global] Instance font_eq_dec : EqDecision font.
Proof. solve_decision. Defined.

(** Which font files load at which size, and how large a text comes out
    in a font: [(left, top, right, bottom)]. *)
Record font_env := {
  font_loads : string -> Z -> bool;
  text_bbox : font -> string -> Z * Z * Z * Z
}.

Module ImageFont.
(** [None] stands for the exception of a failed load. *)
Definition truetype (env : font_env) (path : string) (size : Z) : option font :=
  if font_loads env path size then Some (TrueType path size) else None.

Definition load_default : font := DefaultFont.
End ImageFont.

(** One call on the drawing context. *)
Inductive draw_op :=
  | Line (xy : list (Z * Z)) (fill : color)
  | RoundedRectangle (xy : list Z) (radius : Z) (fill : color)
                     (outline : option color) (width : Z)
  | Text (xy : Z * Z) (text : string) (fill : color) (fnt : font).

#[global] Instance draw_op_eq_dec : EqDecision draw_op.
Proof. solve_decision. Defined.

Module Image.
Record t := mk {
  mode : string;
  size : Z * Z;
  background : color;
  ops : list draw_op
}.

(** [Image.new(mode, size, color)] *)
Definition new (mode : string) (size : Z * Z) (c : color) : t :=
  mk mode size c [].

(** every drawing call lands on the canvas, after the earlier ones *)
Definition paint (op : draw_op) (img : t) : t :=
  mk (mode img) (size img) (background img) (ops img ++ [op]).
End Image.

Abbreviation image := Image.t.

#[global] Instance image_eq_dec : EqDecision image.
Proof. solve_decision. Defined.

(** [ImageDraw.Draw(img)] draws in place on [img]: the context is the
    canvas itself, threaded through the calls. *)
Module ImageDraw.
Definition line (xy : list (Z * Z)) (fill : color) (draw : image) : image :=
  Image.paint (Line xy fill) draw.

(** [outline] and [width] default to none and 1 *)
Definition rounded_rectangle (xy : list Z) (radius : Z) (fill : color)
    (outline : option color) (width : Z) (draw : image) : image :=
  Image.paint (RoundedRectangle xy radius fill outline width) draw.

Definition text (xy : Z * Z) (s : string) (fill : color) (fnt : font)
    (draw : image) : image :=
  Image.paint (Text xy s fill fnt) draw.

(** [draw.textbbox((0, 0), s, font=fnt)] *)
Definition textbbox (env : font_env) (s : string) (fnt : font) : Z * Z * Z * Z :=
  text_bbox env fnt s.
End ImageDraw.

(** ** [create_icon] and [draw_rounded_key] *)

Definition ARIAL_BOLD_SYSTEM : string :=
  "/System/Library/Fonts/Supplemental/Arial Bold.ttf".
Definition ARIAL_BOLD_LIBRARY : string := "/Library/Fonts/Arial Bold.ttf".

(** [c[i]] on a palette colour *)
Definition channel (c : color) (i : nat) : Z := c !!! i.

(** [int(k * scale)] with an [int] [k] *)
Definition scaled (k : Z) (scale : float) : Z :=
  PyFloat.to_int (PyFloat.mul (PyFloat.of_int k) scale).

(** [int(size * f)] with a float literal [f] *)
Definition fraction (size : Z) (f : float) : Z :=
  PyFloat.to_int (PyFloat.mul (PyFloat.of_int size) f).

(** [dark * (1 - ratio) + slate * ratio], a float *)
Definition blend_float (dark slate : Z) (ratio : float) : float :=
  PyFloat.add
    (PyFloat.mul (PyFloat.of_int dark) (PyFloat.sub (PyFloat.of_int 1) ratio))
    (PyFloat.mul (PyFloat.of_int slate) ratio).

(** [int(dark * (1 - ratio) + slate * ratio)] *)
Definition blend (dark slate : Z) (ratio : float) : Z :=
  PyFloat.to_int (blend_float dark slate ratio).

(** the colour of gradient row [y] *)
Definition gradient_color (size y : Z) : color :=
  let ratio := PyFloat.int_true_div y size in
  let r := blend (channel SAPPHIRE_DARK 0) (channel SAPPHIRE_SLATE 0) ratio in
  let g := blend (channel SAPPHIRE_DARK 1) (channel SAPPHIRE_SLATE 1) ratio in
  let b := blend (channel SAPPHIRE_DARK 2) (channel SAPPHIRE_SLATE 2) ratio in
  [r; g; b].

(** body of [for y in range(size)] *)
Definition gradient_row (size : Z) (draw : image) (y : Z) : image :=
  ImageDraw.line [(0, y); (size, y)] (gradient_color size y) draw.

(** [tuple(min(255, c + 40) for c in color)] *)
Definition outline_of (c : color) : color :=
  (fun v => Z.min 255 (v + 40)) <$> c.

Definition draw_rounded_key (env : font_env) (draw : image)
    (x y size radius : Z) (letter : string) (color : color) (fnt : font)
    (scale : float) : image :=
  (* Key shadow *)
  let shadow_offset := scaled 2 scale in
  let draw :=
    ImageDraw.rounded_rectangle
      [x - size / 2 + shadow_offset; y - size / 2 + shadow_offset;
       x + size / 2 + shadow_offset; y + size / 2 + shadow_offset]
      radius [0; 0; 0; 100] None 1 draw in
  (* Key background *)
  let draw :=
    ImageDraw.rounded_rectangle
      [x - size / 2; y - size / 2; x + size / 2; y + size / 2]
      radius color
      (Some (outline_of color))
      (scaled 2 scale) draw in
  (* Key letter *)
  let letter_font_size := fraction size PyFloat.lit_0_5 in
  let letter_font :=
    match ImageFont.truetype env ARIAL_BOLD_SYSTEM letter_font_size with
    | Some f => f
    | None => fnt
    end in
  let bbox := ImageDraw.textbbox env letter letter_font in
  let '(b0, b1, b2, b3) := bbox in
  let letter_width := b2 - b0 in
  let letter_height := b3 - b1 in
  let letter_x := x - letter_width / 2 in
  let letter_y := y - letter_height / 2 in
  ImageDraw.text (letter_x, letter_y) letter WHITE letter_font draw.

(** [enumerate(l)] *)
Definition enumerate {A} (l : list A) : list (Z * A) :=
  zip (seqZ 0 (Z.of_nat (length l))) l.

Definition keys_top : list (string * color) :=
  [("W", SAPPHIRE_ROYAL); ("A", SAPPHIRE_DUSTY);
   ("S", SAPPHIRE_ROYAL); ("D", SAPPHIRE_DUSTY)].

Definition keys_bottom : list (string * color) :=
  [("↑", SAPPHIRE_DUSTY); ("↓", SAPPHIRE_ROYAL);
   ("←", SAPPHIRE_DUSTY); ("→", SAPPHIRE_ROYAL)].

(** body of the two [for i, (letter, color) in enumerate(...)] loops *)
Definition key_step (env : font_env) (start_x start_y key_size key_radius : Z)
    (fnt : font) (scale : float) (draw : image)
    (entry : Z * (string * color)) : image :=
  let '(i, (letter, color)) := entry in
  let x := start_x + i * scaled 40 scale in
  let y := start_y in
  draw_rounded_key env draw x y key_size key_radius letter color fnt scale.

Definition create_icon (env : font_env) (size : Z) : image :=
  (* Create image with gradient background *)
  let img := Image.new "RGB" (size, size) SAPPHIRE_DARK in
  let draw := img in
  let draw := foldl (gradient_row size) draw (seqZ 0 size) in
  (* Scale factor for elements *)
  let scale := PyFloat.int_true_div size 512 in
  (* Draw bridge supports (vertical pillars) *)
  let pillar_width := scaled 16 scale in
  let pillar_height := scaled 120 scale in
  let pillar_x1 := fraction size PyFloat.lit_0_3 in
  let pillar_x2 := fraction size PyFloat.lit_0_7 in
  let pillar_y := fraction size PyFloat.lit_0_7 in
  (* Left pillar *)
  let draw :=
    ImageDraw.rounded_rectangle
      [pillar_x1 - pillar_width / 2; pillar_y - pillar_height;
       pillar_x1 + pillar_width / 2; pillar_y]
      (scaled 4 scale) SAPPHIRE_NAVY (Some SAPPHIRE_ROYAL) (scaled 2 scale)
      draw in
  (* Right pillar *)
  let draw :=
    ImageDraw.rounded_rectangle
      [pillar_x2 - pillar_width / 2; pillar_y - pillar_height;
       pillar_x2 + pillar_width / 2; pillar_y]
      (scaled 4 scale) SAPPHIRE_NAVY (Some SAPPHIRE_ROYAL) (scaled 2 scale)
      draw in
  (* Draw bridge deck (horizontal) *)
  let deck_width := scaled 280 scale in
  let deck_height := scaled 24 scale in
  let deck_x := (size - deck_width) / 2 in
  let deck_y := pillar_y - pillar_height in
  let draw :=
    ImageDraw.rounded_rectangle
      [deck_x; deck_y - deck_height / 2;
       deck_x + deck_width; deck_y + deck_height / 2]
      (scaled 8 scale) SAPPHIRE_NAVY (Some SAPPHIRE_ROYAL) (scaled 2 scale)
      draw in
  (* Draw "OP" letters on bridge *)
  let font_size := scaled 80 scale in
  let fnt :=
    match ImageFont.truetype env ARIAL_BOLD_SYSTEM font_size with
    | Some f => f
    | None =>
      match ImageFont.truetype env ARIAL_BOLD_LIBRARY font_size with
      | Some f => f
      | None => ImageFont.load_default
      end
    end in
  let op_text := "OP" in
  let bbox := ImageDraw.textbbox env op_text fnt in
  let '(b0, b1, b2, b3) := bbox in
  let text_width := b2 - b0 in
  let text_height := b3 - b1 in
  let text_x := (size - text_width) / 2 in
  let text_y := deck_y - text_height / 2 in
  (* Draw text with shadow *)
  let draw :=
    ImageDraw.text (text_x + scaled 2 scale, text_y + scaled 2 scale)
      op_text [0; 0; 0; 128] fnt draw in
  let draw := ImageDraw.text (text_x, text_y) op_text SAPPHIRE_LIGHT fnt draw in
  (* Draw keyboard keys *)
  let key_size := scaled 28 scale in
  let key_radius := scaled 6 scale in
  (* Keys approaching (top left) *)
  let start_x := fraction size PyFloat.lit_0_15 in
  let start_y := fraction size PyFloat.lit_0_25 in
  let draw :=
    foldl (key_step env start_x start_y key_size key_radius fnt scale)
      draw (enumerate keys_top) in
  (* Keys flowing away (bottom right) *)
  let start_x := fraction size PyFloat.lit_0_55 in
  let start_y := fraction size PyFloat.lit_0_75 in
  let draw :=
    foldl (key_step env start_x start_y key_size key_radius fnt scale)
      draw (enumerate keys_bottom) in
  draw.

(** ** [main]: the batch export *)

Definition icon_dir : string := "OverPass/Assets.xcassets/AppIcon.appiconset".

(** Required sizes for macOS *)
Definition sizes : list (Z * string) :=
  [(16, "icon_16x16.png");
   (32, "icon_16x16@2x.png");
   (32, "icon_32x32.png");
   (64, "icon_32x32@2x.png");
   (128, "icon_128x128.png");
   (256, "icon_128x128@2x.png");
   (256, "icon_256x256.png");
   (512, "icon_256x256@2x.png");
   (512, "icon_512x512.png");
   (1024, "icon_512x512@2x.png")].

Module os_path.
Definition ends_with_sep (a : string) : bool :=
  match last (String.list_ascii_of_string a) with
  | Some c => bool_decide (c = "/"%char)
  | None => false
  end.

(** [os.path.join(a, b)] on a POSIX system *)
Definition join (a b : string) : string :=
  if String.prefix "/" b then b
  else if bool_decide (a = "") || ends_with_sep a then a +:+ b
  else a +:+ "/" +:+ b.
End os_path.

(** What the script does to the outside world, one effect per call. *)
Inductive event :=
  | MakeDirs (path : string)
  | Print (line : string)
  | Save (path : string) (format : string) (img : image).

Definition newline : string := String "010"%char "".

(** body of [for size, filename in sizes] *)
Definition export_one (env : font_env) (entry : Z * string) : list event :=
  let '(size, filename) := entry in
  let icon := create_icon env size in
  let icon_path := os_path.join icon_dir filename in
  [Print ("  Creating " +:+ filename +:+ " (" +:+ pretty size +:+ "x"
            +:+ pretty size +:+ ")...");
   Save icon_path "PNG" icon;
   Print ("    ✓ Saved to " +:+ icon_path)].

Definition main (env : font_env) : list event :=
  [MakeDirs icon_dir;
   Print "Generating OverPass app icons..."]
  ++ flat_map (export_one env) sizes
  ++ [Print (newline +:+ "✓ All icon sizes generated!");
      Print ("Icons saved to: " +:+ icon_dir);
      Print (newline +:+ "Next step: Update Contents.json to reference these files.")].

(** The file store and the terminal the effects land on. *)
Record world := {
  files : gmap string (list Byte.byte);
  dirs : gset string;
  stdout : list string
}.

Section FileStore.
(** the encoder of the imaging library: format name and canvas to bytes *)
Variable encode : string -> image -> list Byte.byte.

Definition perform (w : world) (e : event) : world :=
  match e with
  | MakeDirs path =>
    {| files := files w; dirs := {[path]} ∪ dirs w; stdout := stdout w |}
  | Print line =>
    {| files := files w; dirs := dirs w; stdout := stdout w ++ [line] |}
  | Save path format img =>
    {| files := <[path := encode format img]> (files w);
       dirs := dirs w; stdout := stdout w |}
  end.

Definition run (trace : list event) (w : world) : world :=
  foldl perform w trace.

(** [export_all]: one run of [main] *)
Definition export_all (env : font_env) (w : world) : world :=
  run (main env) w.

(** writing a list of files over a store *)
Definition write_all (m : gmap string (list Byte.byte))
    (l : list (string * string * image)) : gmap string (list Byte.byte) :=
  foldl (fun m e => <[e.1.1 := encode e.1.2 e.2]> m) m l.
End FileStore.

(** the files a trace saves, in order: path, format, canvas *)
Definition saves (trace : list event) : list (string * string * image) :=
  omap (fun e => match e with Save p f img => Some (p, f, img) | _ => None end)
       trace.

(** * The properties of the specification, as predicates *)

(** a canvas with more calls at the end *)
Definition extend (d : image) (calls : list draw_op) : image :=
  Image.mk (Image.mode d) (Image.size d) (Image.background d)
           (Image.ops d ++ calls).

(** the call of gradient row [y] *)
Definition gradient_line (size y : Z) : draw_op :=
  Line [(0, y); (size, y)] (gradient_color size y).

(** the three calls of one key badge, read off a blank context *)
Definition key_calls (env : font_env) (x y size radius : Z) (letter : string)
    (c : color) (fnt : font) (scale : float) : list draw_op :=
  Image.ops
    (draw_rounded_key env (Image.new "RGB" (0, 0) []) x y size radius letter c
       fnt scale).

(** the font a key label ends up in *)
Definition letter_font (env : font_env) (size : Z) (fnt : font) : font :=
  default fnt
    (ImageFont.truetype env ARIAL_BOLD_SYSTEM (fraction size PyFloat.lit_0_5)).

(** the calls of one pass of a key loop *)
Definition key_step_calls (env : font_env) (start_x start_y key_size key_radius : Z)
    (fnt : font) (scale : float) (entry : Z * (string * color)) : list draw_op :=
  key_calls env (start_x + entry.1 * scaled 40 scale) start_y key_size
    key_radius entry.2.1 entry.2.2 fnt scale.

(** [scale = size / 512] and the font of the title, as [create_icon]
    computes them *)
Definition scale_of (size : Z) : float := PyFloat.int_true_div size 512.

Definition title_font (env : font_env) (size : Z) : font :=
  let font_size := scaled 80 (scale_of size) in
  match ImageFont.truetype env ARIAL_BOLD_SYSTEM font_size with
  | Some f => f
  | None =>
    match ImageFont.truetype env ARIAL_BOLD_LIBRARY font_size with
    | Some f => f
    | None => ImageFont.load_default
    end
  end.

(** the machine of the witnesses: no font file loads *)
Definition no_fonts : font_env :=
  {| font_loads := fun _ _ => false;
     text_bbox := fun _ t => (0, 0, 6 * Z.of_nat (String.length t), 11) |}.

(** the channel as the specification words it, with [round] *)
Definition spec_blend (dark slate : Z) (ratio : float) : Z :=
  PyFloat.round (blend_float dark slate ratio).

Definition spec_gradient_color (size y : Z) : color :=
  let ratio := PyFloat.int_true_div y size in
  [spec_blend 38 44 ratio; spec_blend 43 68 ratio; spec_blend 64 77 ratio].

(** C2 as worded: row [y] is one run of the rounded blend *)
Definition rows_rounded (env : font_env) (s : Z) : Prop :=
  forall y, 0 <= y < s ->
    Image.ops (create_icon env s) !! Z.to_nat y
    = Some (Line [(0, y); (s, y)] (spec_gradient_color s y)).

(** a key badge as it can be read back from the calls: its label, its
    fill, the centre of its background, the side of that square and the
    radius of its corners *)
Record badge := {
  badge_label : string;
  badge_fill : color;
  badge_x : Z;
  badge_y : Z;
  badge_side : Z;
  badge_radius : Z
}.

#[global] Instance badge_eq_dec : EqDecision badge.
Proof. solve_decision. Defined.

(** A badge is a shadow (a rounded rectangle without outline), an outlined
    rounded rectangle and a text, in a row. *)
Fixpoint badges_of (calls : list draw_op) : list badge :=
  match calls with
  | RoundedRectangle _ _ _ None _
      :: RoundedRectangle [x0; y0; x1; y1] radius fill (Some _) _
      :: Text _ label _ _ :: rest =>
    {| badge_label := label; badge_fill := fill;
       badge_x := (x0 + x1) / 2; badge_y := (y0 + y1) / 2;
       badge_side := x1 - x0; badge_radius := radius |} :: badges_of rest
  | _ :: rest => badges_of rest
  | [] => []
  end.

(** where the specification puts badge [i] of a row that starts at
    [(fx, fy)] of the size: exact fractions, [40 * scale] apart *)
Definition spec_badge_x (s : Z) (fx : Q) (i : Z) : Q :=
  (fx * inject_Z s + inject_Z i * (40 * (inject_Z s / 512)))%Q.
Definition spec_badge_y (s : Z) (fy : Q) : Q := (fy * inject_Z s)%Q.

Definition near (v : Z) (q : Q) : Prop := (Qabs (inject_Z v - q) < 1)%Q.

Definition placed_as_specified (s : Z) (fx fy : Q) (row : list badge) : Prop :=
  forall (i : nat) b, row !! i = Some b ->
    near (badge_x b) (spec_badge_x s fx (Z.of_nat i))
    /\ near (badge_y b) (spec_badge_y s fy).

(** C6 as worded, its positions read up to less than a pixel *)
Definition keys_as_specified (env : font_env) (s : Z) : Prop :=
  let bs := badges_of (Image.ops (create_icon env s)) in
  badge_label <$> bs = ["W"; "A"; "S"; "D"; "↑"; "↓"; "←"; "→"]
  /\ badge_fill <$> bs
     = [SAPPHIRE_ROYAL; SAPPHIRE_DUSTY; SAPPHIRE_ROYAL; SAPPHIRE_DUSTY;
        SAPPHIRE_DUSTY; SAPPHIRE_ROYAL; SAPPHIRE_DUSTY; SAPPHIRE_ROYAL]
  /\ placed_as_specified s (15 # 100) (25 # 100) (take 4 bs)
  /\ placed_as_specified s (55 # 100) (75 # 100) (drop 4 bs).

(** the colours of the gradient rows, top row first *)
Definition gradient_of (img : image) : list color :=
  omap (fun op => match op with Line _ c => Some c | _ => None end)
       (Image.ops img).

Definition within_one (c d : color) : Prop :=
  Forall2 (fun a b => Z.abs (a - b) <= 1) c d.

#[global] Instance within_one_dec c d : Decision (within_one c d).
Proof. unfold within_one. apply _. Defined.

Definition channels_le (c d : color) : Prop := Forall2 Z.le c d.

(** C3 as worded: dark on top, slate up to one at the bottom,
    no channel decreasing on the way down *)
Definition gradient_as_specified (env : font_env) (s : Z) : Prop :=
  let g := gradient_of (create_icon env s) in
  g !! 0%nat = Some SAPPHIRE_DARK
  /\ (exists c, last g = Some c /\ within_one c SAPPHIRE_SLATE)
  /\ forall (y1 y2 : nat) c1 c2,
       (y1 < y2)%nat -> g !! y1 = Some c1 -> g !! y2 = Some c2 ->
       channels_le c1 c2.

(** ** Rounding: what the analysis of the floats needs *)

(** [P / D] lies at [m] as the two bits of the record say *)
Definition inrec (P D : Z) (mrs : SpecFloat.shr_record) : Prop :=
  let m := SpecFloat.shr_m mrs in
  match SpecFloat.shr_r mrs, SpecFloat.shr_s mrs with
  | false, false => P = m * D
  | false, true => 0 < 2 * (P - m * D) < D
  | true, false => 2 * (P - m * D) = D
  | true, true => D < 2 * (P - m * D) < 2 * D
  end.

(** the non-negative finite doubles *)
Definition nonneg (f : float) : Prop :=
  match f with
  | SpecFloat.S754_zero false | SpecFloat.S754_finite false _ _ => True
  | _ => False
  end.

Definition pow2 (e : Z) : Q := (2 ^ e)%Q.

(** the blend in exact arithmetic: [dark + (slate - dark) * y / s] *)
Definition exact_blend (dark slate s y : Z) : Q :=
  (inject_Z dark + inject_Z (slate - dark) * (inject_Z y / inject_Z s))%Q.

(** the (dark, slate) pair of each channel *)
Definition channel_pairs : list (Z * Z) := [(38, 44); (43, 68); (64, 77)].

(** * Properties *)

#[local] Arguments scaled : simpl never.
#[local] Arguments fraction : simpl never.
#[local] Arguments blend : simpl never.
#[local] Arguments gradient_color : simpl never.
#[local] Arguments PyFloat.int_true_div : simpl never.

(** ** The canvas as a list of calls

    Every drawing function leaves the canvas as it was and adds its calls at
    the end; [extend] says so once for all of them. *)

Lemma extend_nil d : extend d [] = d.
Proof. destruct d; unfold extend; simpl. by rewrite app_nil_r. Qed.

Lemma extend_extend d k l : extend (extend d k) l = extend d (k ++ l).
Proof. unfold extend; simpl. by rewrite app_assoc. Qed.

Lemma paint_extend op d : Image.paint op d = extend d [op].
Proof. reflexivity. Qed.

Lemma gradient_rows_extend size rows d :
  foldl (gradient_row size) d rows = extend d (gradient_line size <$> rows).
Proof.
  revert d. induction rows as [|y rows IH]; intros d; simpl.
  - by rewrite extend_nil.
  - rewrite IH. unfold gradient_row, ImageDraw.line.
    rewrite paint_extend, extend_extend. reflexivity.
Qed.

Lemma draw_rounded_key_extend env d x y size radius letter c fnt scale :
  draw_rounded_key env d x y size radius letter c fnt scale
  = extend d (key_calls env x y size radius letter c fnt scale).
Proof.
  unfold key_calls, draw_rounded_key, ImageDraw.textbbox.
  destruct (text_bbox env _ letter) as [[[b0 b1] b2] b3].
  unfold ImageDraw.text, ImageDraw.rounded_rectangle.
  rewrite !paint_extend, !extend_extend. reflexivity.
Qed.

Lemma key_calls_shape env x y size radius letter c fnt scale :
  exists xy xy' p,
    key_calls env x y size radius letter c fnt scale
    = [RoundedRectangle xy radius [0; 0; 0; 100] None 1;
       RoundedRectangle xy' radius c
         (Some (outline_of c)) (scaled 2 scale);
       Text p letter WHITE (letter_font env size fnt)].
Proof.
  unfold key_calls, draw_rounded_key, ImageDraw.textbbox, letter_font.
  destruct (ImageFont.truetype env _ _) as [f|]; simpl;
    destruct (text_bbox env _ letter) as [[[b0 b1] b2] b3]; simpl; eauto.
Qed.

Lemma key_steps_extend env sx sy ks kr fnt scale entries d :
  foldl (key_step env sx sy ks kr fnt scale) d entries
  = extend d (flat_map (key_step_calls env sx sy ks kr fnt scale) entries).
Proof.
  revert d. induction entries as [|[i [letter c]] entries IH]; intros d; simpl.
  - by rewrite extend_nil.
  - rewrite IH, draw_rounded_key_extend, extend_extend. reflexivity.
Qed.

(** The whole picture: the gradient rows, the two pillars, the deck, the
    title twice (shadow, then text), the four keys of the top row and the
    four of the bottom row. *)
Lemma create_icon_calls env size :
  exists xy1 xy2 xy3 p q,
    create_icon env size
    = Image.mk "RGB" (size, size) SAPPHIRE_DARK
        ((gradient_line size <$> seqZ 0 size)
         ++ [RoundedRectangle xy1 (scaled 4 (scale_of size)) SAPPHIRE_NAVY
               (Some SAPPHIRE_ROYAL) (scaled 2 (scale_of size));
             RoundedRectangle xy2 (scaled 4 (scale_of size)) SAPPHIRE_NAVY
               (Some SAPPHIRE_ROYAL) (scaled 2 (scale_of size));
             RoundedRectangle xy3 (scaled 8 (scale_of size)) SAPPHIRE_NAVY
               (Some SAPPHIRE_ROYAL) (scaled 2 (scale_of size));
             Text p "OP" [0; 0; 0; 128] (title_font env size);
             Text q "OP" SAPPHIRE_LIGHT (title_font env size)]
         ++ flat_map
              (key_step_calls env (fraction size PyFloat.lit_0_15)
                 (fraction size PyFloat.lit_0_25) (scaled 28 (scale_of size))
                 (scaled 6 (scale_of size)) (title_font env size)
                 (scale_of size))
              (enumerate keys_top)
         ++ flat_map
              (key_step_calls env (fraction size PyFloat.lit_0_55)
                 (fraction size PyFloat.lit_0_75) (scaled 28 (scale_of size))
                 (scaled 6 (scale_of size)) (title_font env size)
                 (scale_of size))
              (enumerate keys_bottom)).
Proof.
  unfold create_icon, ImageDraw.textbbox.
  fold (scale_of size). fold (title_font env size).
  destruct (text_bbox env (title_font env size) "OP") as [[[b0 b1] b2] b3].
  do 5 eexists.
  rewrite !key_steps_extend.
  unfold ImageDraw.text, ImageDraw.rounded_rectangle.
  rewrite !paint_extend, gradient_rows_extend, !extend_extend.
  unfold extend, Image.new; simpl Image.mode; simpl Image.size;
    simpl Image.background; simpl Image.ops.
  rewrite app_nil_l. reflexivity.
Qed.

(** ** C1: the size of the canvas *)

(** C1. For every positive size [s], [create_icon] returns a canvas of
    exactly [s] by [s] pixels (an RGB one). *)
Theorem create_icon_size (env : font_env) (s : Z) :
  0 < s ->
  Image.size (create_icon env s) = (s, s) /\ Image.mode (create_icon env s) = "RGB".
Proof.
  intros _. destruct (create_icon_calls env s) as (?&?&?&?&?&->). done.
Qed.

(** ** C5: the outline colour of a key *)

(** C5. For every fill colour [(r, g, b)] with channels in [0, 255], the
    key background that [draw_rounded_key] draws is outlined in the colour
    whose channels are [min(255, c + 40)], and each of them is at most 255
    (and not below the channel it comes from). *)
Theorem key_outline_clamped (env : font_env) (d : image) (x y size radius : Z)
    (letter : string) (r g b : Z) (fnt : font) (scale : float) :
  0 <= r <= 255 -> 0 <= g <= 255 -> 0 <= b <= 255 ->
  exists shadow xy label,
    Image.ops (draw_rounded_key env d x y size radius letter [r; g; b] fnt scale)
    = Image.ops d
      ++ [shadow;
          RoundedRectangle xy radius [r; g; b]
            (Some [Z.min 255 (r + 40); Z.min 255 (g + 40); Z.min 255 (b + 40)])
            (scaled 2 scale);
          label]
    /\ Forall2 (fun c o => c <= o <= 255) [r; g; b] (outline_of [r; g; b]).
Proof.
  intros Hr Hg Hb. rewrite draw_rounded_key_extend.
  destruct (key_calls_shape env x y size radius letter [r; g; b] fnt scale)
    as (xy & xy' & p & ->).
  exists (RoundedRectangle xy radius [0; 0; 0; 100] None 1), xy',
    (Text p letter WHITE (letter_font env size fnt)).
  split; [reflexivity|].
  unfold outline_of; simpl. repeat constructor; lia.
Qed.

Lemma key_outline_clamped_witness :
  exists shadow xy label,
    Image.ops (draw_rounded_key
                 {| font_loads := fun _ _ => false;
                    text_bbox := fun _ _ => (0, 0, 6, 11) |}
                 (Image.new "RGB" (512, 512) SAPPHIRE_DARK) 76 128 28 6 "W"
                 [250; 255; 0] DefaultFont (scale_of 512))
    = Image.ops (Image.new "RGB" (512, 512) SAPPHIRE_DARK)
      ++ [shadow;
          RoundedRectangle xy 6 [250; 255; 0]
            (Some [Z.min 255 (250 + 40); Z.min 255 (255 + 40); Z.min 255 (0 + 40)])
            (scaled 2 (scale_of 512));
          label]
    /\ Forall2 (fun c o => c <= o <= 255) [250; 255; 0] (outline_of [250; 255; 0]).
Proof. apply key_outline_clamped; lia. Defined.

(** ** C4: the export list *)

(** C4. [main] saves exactly ten files, in this order, each the PNG of
    [create_icon] at the size paired with its name. *)
Theorem main_saves_ten (env : font_env) :
  saves (main env)
  = [("OverPass/Assets.xcassets/AppIcon.appiconset/icon_16x16.png", "PNG",
      create_icon env 16);
     ("OverPass/Assets.xcassets/AppIcon.appiconset/icon_16x16@2x.png", "PNG",
      create_icon env 32);
     ("OverPass/Assets.xcassets/AppIcon.appiconset/icon_32x32.png", "PNG",
      create_icon env 32);
     ("OverPass/Assets.xcassets/AppIcon.appiconset/icon_32x32@2x.png", "PNG",
      create_icon env 64);
     ("OverPass/Assets.xcassets/AppIcon.appiconset/icon_128x128.png", "PNG",
      create_icon env 128);
     ("OverPass/Assets.xcassets/AppIcon.appiconset/icon_128x128@2x.png", "PNG",
      create_icon env 256);
     ("OverPass/Assets.xcassets/AppIcon.appiconset/icon_256x256.png", "PNG",
      create_icon env 256);
     ("OverPass/Assets.xcassets/AppIcon.appiconset/icon_256x256@2x.png", "PNG",
      create_icon env 512);
     ("OverPass/Assets.xcassets/AppIcon.appiconset/icon_512x512.png", "PNG",
      create_icon env 512);
     ("OverPass/Assets.xcassets/AppIcon.appiconset/icon_512x512@2x.png", "PNG",
      create_icon env 1024)]
  /\ (fst <$> sizes) = [16; 32; 32; 64; 128; 256; 256; 512; 512; 1024].
Proof. split; reflexivity. Qed.

(** ** C7: the font fallback *)








Lemma create_icon_size_witness :
  Image.size (create_icon no_fonts 16) = (16, 16)
  /\ Image.mode (create_icon no_fonts 16) = "RGB".
Proof. apply create_icon_size. lia. Defined.

(** ** C9: the stroke width below 256 pixels *)

Lemma stroke_width_small_sizes :
  forallb (fun s => scaled 2 (scale_of s) =? 0) (seqZ 1 255) = true.
Proof. vm_compute. reflexivity. Qed.

Lemma key_steps_outline env sx sy ks kr fnt scale entries xy rad fill o w :
  RoundedRectangle xy rad fill (Some o) w
    ∈ flat_map (key_step_calls env sx sy ks kr fnt scale) entries ->
  w = scaled 2 scale.
Proof.
  induction entries as [|e entries IH]; simpl.
  - by rewrite elem_of_nil.
  - rewrite elem_of_app. intros [H|H]; [|by apply IH].
    unfold key_step_calls in H.
    destruct (key_calls_shape env (sx + e.1 * scaled 40 scale) sy ks kr e.2.1
                e.2.2 fnt scale) as (? & ? & ? & E).
    rewrite E, !elem_of_cons, elem_of_nil in H.
    destruct H as [?|[?|[?|[]]]]; try discriminate; congruence.
Qed.

(** every outlined shape of the picture has the stroke width [int(2 * scale)] *)
Lemma outlines_have_stroke_width env s xy rad fill o w :
  RoundedRectangle xy rad fill (Some o) w ∈ Image.ops (create_icon env s) ->
  w = scaled 2 (scale_of s).
Proof.
  destruct (create_icon_calls env s) as (xy1 & xy2 & xy3 & p0 & q0 & ->).
  cbn [Image.ops]. rewrite !elem_of_app, list_elem_of_fmap.
  intros [(y & Hy & _)|[H|[H|H]]].
  - discriminate Hy.
  - rewrite !elem_of_cons, elem_of_nil in H.
    destruct H as [?|[?|[?|[?|[?|[]]]]]]; try discriminate; congruence.
  - by apply key_steps_outline in H.
  - by apply key_steps_outline in H.
Qed.

(** C9. For every size below 256, [int(2 * scale)] is 0, so every outline
    of the picture (pillars, deck, key backgrounds) is asked for with width
    0; among the exported sizes these are 16, 32, 64 and 128. *)
Theorem stroke_width_zero_below_256 (env : font_env) (s : Z) :
  0 < s < 256 ->
  scaled 2 (scale_of s) = 0
  /\ (forall xy rad fill o w,
        RoundedRectangle xy rad fill (Some o) w ∈ Image.ops (create_icon env s) ->
        w = 0)
  /\ List.filter (fun n => n <? 256) (fst <$> sizes) = [16; 32; 32; 64; 128].
Proof.
  intros Hs.
  assert (Hw : scaled 2 (scale_of s) = 0).
  { pose proof stroke_width_small_sizes as H.
    rewrite forallb_forall in H. apply Z.eqb_eq, H.
    apply list_elem_of_In, elem_of_seqZ. lia. }
  split; [exact Hw|]. split; [|reflexivity].
  intros xy rad fill o w H.
  apply outlines_have_stroke_width in H. congruence.
Qed.

Lemma stroke_width_zero_below_256_witness :
  scaled 2 (scale_of 128) = 0
  /\ (forall xy rad fill o w,
        RoundedRectangle xy rad fill (Some o) w
          ∈ Image.ops (create_icon no_fonts 128) ->
        w = 0)
  /\ List.filter (fun n => n <? 256) (fst <$> sizes) = [16; 32; 32; 64; 128].
Proof. apply stroke_width_zero_below_256. lia. Defined.

(** ** C8 and C10: what [export_all] leaves in the file store *)

Lemma saves_main env :
  saves (main env)
  = (fun e => (os_path.join icon_dir e.2, "PNG", create_icon env e.1)) <$> sizes.
Proof. reflexivity. Qed.

Lemma export_paths_distinct :
  NoDup ((fun e : Z * string => os_path.join icon_dir e.2) <$> sizes).
Proof. apply (bool_decide_unpack _). vm_compute. exact I. Qed.

Section FileStoreFacts.
Variable encode : string -> image -> list Byte.byte.

Lemma run_files trace w :
  files (run encode trace w) = write_all encode (files w) (saves trace).
Proof.
  unfold run, write_all, saves. revert w.
  induction trace as [|e trace IH]; intros w; simpl; [reflexivity|].
  rewrite IH. by destruct e.
Qed.




Lemma write_all_other m l path :
  path ∉ l.*1.*1 -> write_all encode m l !! path = m !! path.
Proof.
  unfold write_all. revert m.
  induction l as [|e l IH]; intros m; simpl; [done|].
  rewrite not_elem_of_cons. intros [Hne Hl].
  rewrite IH by done. by rewrite lookup_insert_ne.
Qed.

Lemma write_all_lookup m l path f img :
  NoDup l.*1.*1 -> (path, f, img) ∈ l ->
  write_all encode m l !! path = Some (encode f img).
Proof.
  revert m. induction l as [|e l IH]; intros m; simpl.
  - by rewrite elem_of_nil.
  - rewrite NoDup_cons, elem_of_cons. intros [Hfresh Hl] [<-|Hin].
    + change (write_all encode m ((path, f, img) :: l))
        with (write_all encode (<[path := encode f img]> m) l).
      rewrite write_all_other by done. apply lookup_insert_eq.
    + change (write_all encode m (e :: l))
        with (write_all encode (<[e.1.1 := encode e.1.2 e.2]> m) l).
      by apply IH.
Qed.

Lemma export_all_files env w :
  files (export_all encode env w) = write_all encode (files w) (saves (main env)).
Proof. apply run_files. Qed.

Lemma saved_file_content env m path f img :
  (path, f, img) ∈ saves (main env) ->
  write_all encode m (saves (main env)) !! path = Some (encode f img).
Proof.
  apply write_all_lookup. rewrite saves_main, <- !list_fmap_compose.
  apply export_paths_distinct.
Qed.


Lemma exported_file env w s n :
  (s, n) ∈ sizes ->
  files (export_all encode env w) !! os_path.join icon_dir n
  = Some (encode "PNG" (create_icon env s)).
Proof.
  intros H. rewrite export_all_files. apply saved_file_content.
  rewrite saves_main. apply list_elem_of_fmap. by exists (s, n).
Qed.

(** C10. The sizes 32, 256 and 512 are each exported under two names, and
    the two files of a pair hold the same bytes: the encoding of the one
    canvas of that size. *)
Theorem export_all_paired_files (env : font_env) (w : world) :
  let fs := files (export_all encode env w) in
  let at_name n := fs !! os_path.join icon_dir n in
  (at_name "icon_16x16@2x.png" = at_name "icon_32x32.png"
   /\ at_name "icon_32x32.png" = Some (encode "PNG" (create_icon env 32)))
  /\ (at_name "icon_128x128@2x.png" = at_name "icon_256x256.png"
      /\ at_name "icon_256x256.png" = Some (encode "PNG" (create_icon env 256)))
  /\ (at_name "icon_256x256@2x.png" = at_name "icon_512x512.png"
      /\ at_name "icon_512x512.png" = Some (encode "PNG" (create_icon env 512))).
Proof.
  intros fs at_name. subst fs at_name. cbv beta.
  assert (H : forall s n, In (s, n) sizes -> (s, n) ∈ sizes)
    by (intros; by apply list_elem_of_In).
  rewrite (exported_file env w 32 "icon_16x16@2x.png") by (apply H; simpl; tauto).
  rewrite (exported_file env w 32 "icon_32x32.png") by (apply H; simpl; tauto).
  rewrite (exported_file env w 256 "icon_128x128@2x.png") by (apply H; simpl; tauto).
  rewrite (exported_file env w 256 "icon_256x256.png") by (apply H; simpl; tauto).
  rewrite (exported_file env w 512 "icon_256x256@2x.png") by (apply H; simpl; tauto).
  rewrite (exported_file env w 512 "icon_512x512.png") by (apply H; simpl; tauto).
  repeat split.
Qed.

End FileStoreFacts.

(** ** C6: the eight key badges *)

(** At size 16 the keys are 1 pixel apart ([int(1.25)]), not 1.25: the
    fourth key is drawn at x = 5, more than a pixel left of 6.15. *)
Lemma keys_as_specified_counterexample : ~ keys_as_specified no_fonts 16.
Proof.
  intros (_ & _ & H & _).
  specialize (H 3%nat _ eq_refl) as [H _].
  vm_compute in H. discriminate H.
Qed.

Lemma key_calls_eq env x y size radius letter c fnt scale :
  key_calls env x y size radius letter c fnt scale
  = let lf := letter_font env size fnt in
    let bbox := text_bbox env lf letter in
    [RoundedRectangle
       [x - size / 2 + scaled 2 scale; y - size / 2 + scaled 2 scale;
        x + size / 2 + scaled 2 scale; y + size / 2 + scaled 2 scale]
       radius [0; 0; 0; 100] None 1;
     RoundedRectangle [x - size / 2; y - size / 2; x + size / 2; y + size / 2]
       radius c (Some (outline_of c)) (scaled 2 scale);
     Text (x - (bbox.1.2 - bbox.1.1.1) / 2, y - (bbox.2 - bbox.1.1.2) / 2)
       letter WHITE lf].
Proof.
  unfold key_calls, draw_rounded_key, ImageDraw.textbbox, letter_font.
  destruct (ImageFont.truetype env _ _) as [f|]; simpl;
    destruct (text_bbox env _ letter) as [[[b0 b1] b2] b3]; reflexivity.
Qed.

Lemma centre a h : (a - h + (a + h)) / 2 = a.
Proof. replace (a - h + (a + h)) with (a * 2) by lia. by apply Z.div_mul. Qed.

Lemma badges_of_lines size rows rest :
  badges_of ((gradient_line size <$> rows) ++ rest) = badges_of rest.
Proof. induction rows as [|y rows IH]; simpl; [reflexivity|exact IH]. Qed.

Lemma badges_of_keys env sx sy ks kr fnt scale entries rest :
  badges_of (flat_map (key_step_calls env sx sy ks kr fnt scale) entries ++ rest)
  = ((fun e : Z * (string * color) =>
        {| badge_label := e.2.1; badge_fill := e.2.2;
           badge_x := sx + e.1 * scaled 40 scale; badge_y := sy;
           badge_side := 2 * (ks / 2); badge_radius := kr |}) <$> entries)
    ++ badges_of rest.
Proof.
  induction entries as [|e entries IH]; [reflexivity|].
  cbn [flat_map fmap list_fmap app]. rewrite <- app_assoc.
  unfold key_step_calls at 1. rewrite key_calls_eq.
  cbv zeta. cbn [app badges_of]. rewrite IH, !centre.
  do 2 f_equal. lia.
Qed.

Lemma enumerate_keys_top :
  enumerate keys_top
  = [(0, ("W", SAPPHIRE_ROYAL)); (1, ("A", SAPPHIRE_DUSTY));
     (2, ("S", SAPPHIRE_ROYAL)); (3, ("D", SAPPHIRE_DUSTY))].
Proof. reflexivity. Qed.

Lemma enumerate_keys_bottom :
  enumerate keys_bottom
  = [(0, ("↑", SAPPHIRE_DUSTY)); (1, ("↓", SAPPHIRE_ROYAL));
     (2, ("←", SAPPHIRE_DUSTY)); (3, ("→", SAPPHIRE_ROYAL))].
Proof. reflexivity. Qed.

(** C6, amended. Every picture has exactly eight key badges: W, A, S, D
    in royal, dusty, royal, dusty, then the up, down, left and right arrows
    in dusty, royal, dusty, royal.  The first row starts at
    [(int(size * 0.15), int(size * 0.25))], the second at
    [(int(size * 0.55), int(size * 0.75))], and in both each badge is
    [int(40 * scale)] whole pixels right of the one before (the products
    are cut to integers before they are added up).  All eight have the same
    size: a square reaching [int(28 * scale) // 2] to each side of its
    centre, with corners of radius [int(6 * scale)]. *)
Theorem keys_drawn (env : font_env) (s : Z) :
  let dx := scaled 40 (scale_of s) in
  let top_x := fraction s PyFloat.lit_0_15 in
  let top_y := fraction s PyFloat.lit_0_25 in
  let bottom_x := fraction s PyFloat.lit_0_55 in
  let bottom_y := fraction s PyFloat.lit_0_75 in
  let side := 2 * (scaled 28 (scale_of s) / 2) in
  let radius := scaled 6 (scale_of s) in
  badges_of (Image.ops (create_icon env s))
  = [Build_badge "W" SAPPHIRE_ROYAL top_x top_y side radius;
     Build_badge "A" SAPPHIRE_DUSTY (top_x + dx) top_y side radius;
     Build_badge "S" SAPPHIRE_ROYAL (top_x + 2 * dx) top_y side radius;
     Build_badge "D" SAPPHIRE_DUSTY (top_x + 3 * dx) top_y side radius;
     Build_badge "↑" SAPPHIRE_DUSTY bottom_x bottom_y side radius;
     Build_badge "↓" SAPPHIRE_ROYAL (bottom_x + dx) bottom_y side radius;
     Build_badge "←" SAPPHIRE_DUSTY (bottom_x + 2 * dx) bottom_y side radius;
     Build_badge "→" SAPPHIRE_ROYAL (bottom_x + 3 * dx) bottom_y side radius].
Proof.
  intros dx top_x top_y bottom_x bottom_y side radius.
  destruct (create_icon_calls env s) as (xy1 & xy2 & xy3 & p0 & q0 & ->).
  cbn [Image.ops]. rewrite badges_of_lines.
  cbn [app badges_of].
  rewrite badges_of_keys.
  rewrite <- (app_nil_r (flat_map _ (enumerate keys_bottom))), badges_of_keys.
  rewrite enumerate_keys_top, enumerate_keys_bottom.
  cbn [fmap list_fmap app fst snd].
  subst dx top_x top_y bottom_x bottom_y side radius.
  repeat (f_equal; try lia).
Qed.

(** ** Floating point: how far a rounded result is from the exact one *)

Module Rounding.
Import SpecFloat.

Lemma digits2_size p : digits2_pos p = Pos.size p.
Proof. induction p; simpl; congruence. Qed.

Lemma digits_bounds p :
  2 ^ (Zpos (digits2_pos p) - 1) <= Zpos p < 2 ^ Zpos (digits2_pos p).
Proof.
  rewrite digits2_size. split.
  - pose proof (Pos.size_le p) as H.
    assert (E : 2 ^ Zpos (Pos.size p) = 2 * 2 ^ (Zpos (Pos.size p) - 1)).
    { rewrite <- Z.pow_succ_r by lia. f_equal. lia. }
    assert (H' : 2 ^ Zpos (Pos.size p) <= Zpos p~0).
    { rewrite <- Pos2Z.inj_pow. exact H. }
    lia.
  - pose proof (Pos.size_gt p) as H.
    rewrite <- Pos2Z.inj_pow. exact H.
Qed.

Lemma div2_xI p : Zpos p~1 / 2 = Zpos p.
Proof. symmetry. apply Z.div_unique with 1; lia. Qed.

Lemma div2_xO p : Zpos p~0 / 2 = Zpos p.
Proof. symmetry. apply Z.div_unique with 0; lia. Qed.

Lemma inrec_shr_1 P D mrs :
  0 < D -> 0 <= shr_m mrs -> inrec P D mrs ->
  inrec P (2 * D) (shr_1 mrs) /\ shr_m (shr_1 mrs) = shr_m mrs / 2.
Proof.
  intros HD Hm. destruct mrs as [m r s]. unfold inrec; simpl in *.
  destruct m as [|p|p]; [| |lia].
  - destruct r, s; simpl; intros H; split; try reflexivity; lia.
  - destruct p as [p|p|]; destruct r, s; simpl; intros H;
      rewrite ?div2_xI, ?div2_xO; (split; [|reflexivity]);
      try rewrite Pos2Z.inj_xI in *; try rewrite Pos2Z.inj_xO in *; nia.
Qed.

Lemma pow2_xO n : 2 ^ Zpos n~0 = 2 ^ Zpos n * 2 ^ Zpos n.
Proof. rewrite Pos2Z.inj_xO, <- Z.pow_add_r by lia. f_equal. lia. Qed.

Lemma pow2_xI n : 2 ^ Zpos n~1 = 2 ^ Zpos n * (2 ^ Zpos n * 2).
Proof.
  rewrite Pos2Z.inj_xI.
  replace (2 * Zpos n + 1) with (Zpos n + (Zpos n + 1)) by lia.
  rewrite !Z.pow_add_r by lia. reflexivity.
Qed.

Lemma inrec_shr_pos n : forall P D mrs,
  0 < D -> 0 <= shr_m mrs -> inrec P D mrs ->
  inrec P (2 ^ Zpos n * D) (iter_pos shr_1 n mrs)
  /\ shr_m (iter_pos shr_1 n mrs) = shr_m mrs / 2 ^ Zpos n.
Proof.
  induction n as [n IH|n IH|]; intros P D mrs HD Hm H; simpl iter_pos.
  - destruct (inrec_shr_1 P D mrs HD Hm H) as [H1 E1].
    assert (Hm1 : 0 <= shr_m (shr_1 mrs)) by (rewrite E1; apply Z.div_pos; lia).
    destruct (IH P (2 * D) _ ltac:(lia) Hm1 H1) as [H2 E2].
    assert (Hp : 0 < 2 ^ Zpos n) by (apply Z.pow_pos_nonneg; lia).
    assert (Hm2 : 0 <= shr_m (iter_pos shr_1 n (shr_1 mrs)))
      by (rewrite E2; apply Z.div_pos; lia).
    destruct (IH P (2 ^ Zpos n * (2 * D)) _ ltac:(nia) Hm2 H2) as [H3 E3].
    rewrite pow2_xI. split.
    + replace (2 ^ Zpos n * (2 ^ Zpos n * 2) * D)
        with (2 ^ Zpos n * (2 ^ Zpos n * (2 * D))) by ring.
      exact H3.
    + rewrite E3, E2, E1, !Z.div_div by lia. f_equal. ring.
  - destruct (IH P D _ HD Hm H) as [H2 E2].
    assert (Hp : 0 < 2 ^ Zpos n) by (apply Z.pow_pos_nonneg; lia).
    assert (Hm2 : 0 <= shr_m (iter_pos shr_1 n mrs))
      by (rewrite E2; apply Z.div_pos; lia).
    destruct (IH P (2 ^ Zpos n * D) _ ltac:(nia) Hm2 H2) as [H3 E3].
    rewrite pow2_xO. split.
    + replace (2 ^ Zpos n * 2 ^ Zpos n * D) with (2 ^ Zpos n * (2 ^ Zpos n * D))
        by ring. exact H3.
    + rewrite E3, E2, !Z.div_div by lia. reflexivity.
  - destruct (inrec_shr_1 P D mrs HD Hm H) as [H1 E1].
    rewrite Z.pow_1_r. split; assumption.
Qed.

(** the outcome of [shr]: a shift by [max n 0] *)
Lemma inrec_shr P D mrs e n :
  0 < D -> 0 <= shr_m mrs -> inrec P D mrs ->
  inrec P (2 ^ Z.max n 0 * D) (fst (shr mrs e n))
  /\ shr_m (fst (shr mrs e n)) = shr_m mrs / 2 ^ Z.max n 0
  /\ snd (shr mrs e n) = e + Z.max n 0.
Proof.
  intros HD Hm H. destruct n as [|n|n]; unfold shr; cbn [fst snd].
  - rewrite Z.max_l, Z.pow_0_r, Z.mul_1_l, Z.div_1_r by lia.
    repeat split; [assumption|lia].
  - rewrite Z.max_l by lia.
    destruct (inrec_shr_pos n P D mrs HD Hm H) as [H1 E1].
    repeat split; assumption.
  - rewrite Z.max_r, Z.pow_0_r, Z.mul_1_l, Z.div_1_r by lia.
    repeat split; [assumption|lia].
Qed.

(** rounding to nearest, ties to even, is within a half *)
Lemma round_nearest_even_spec P D mrs :
  0 < D -> 0 <= shr_m mrs -> inrec P D mrs ->
  let m' := round_nearest_even (shr_m mrs) (loc_of_shr_record mrs) in
  Z.abs (2 * (m' * D - P)) <= D
  /\ shr_m mrs <= m' <= shr_m mrs + 1
  /\ (shr_r mrs = false -> shr_s mrs = false -> m' = shr_m mrs).
Proof.
  intros HD Hm. destruct mrs as [m r s]. unfold inrec; simpl.
  destruct r, s; simpl; intros H; try (destruct (Z.even m)); 
    repeat split; try lia; try discriminate; nia.
Qed.

Lemma fexp_eq k : fexp PyFloat.prec PyFloat.emax k = Z.max (k - 53) (-1074).
Proof. reflexivity. Qed.

Lemma shr_m_of_loc m l : shr_m (shr_record_of_loc m l) = m.
Proof. destruct l as [|[]]; reflexivity. Qed.

Lemma loc_of_exact m : loc_of_shr_record (shr_record_of_loc m loc_Exact) = loc_Exact.
Proof. reflexivity. Qed.

Lemma digits_le m k : 0 < m -> m < 2 ^ k -> Zdigits2 m <= k.
Proof.
  intros Hm Hk. destruct m as [|p|p]; try lia. simpl.
  destruct (Z.le_gt_cases k 0) as [Hk0|Hk0].
  { assert (2 ^ k <= 1).
    { destruct (Z.eq_dec k 0) as [->|]; [simpl; lia|].
      rewrite Z.pow_neg_r by lia. lia. }
    lia. }
  pose proof (digits_bounds p) as [Hd _].
  apply Z.lt_succ_r. apply (Z.pow_lt_mono_r_iff 2); [lia|lia|].
  replace (Z.succ k) with (k + 1) by lia.
  rewrite Z.pow_add_r by lia.
  assert (0 < 2 ^ (Zpos (digits2_pos p) - 1)) by (apply Z.pow_pos_nonneg; lia).
  replace (2 ^ Zpos (digits2_pos p))
    with (2 ^ (Zpos (digits2_pos p) - 1) * 2).
  - nia.
  - rewrite <- (Z.pow_1_r 2) at 2. rewrite <- Z.pow_add_r by lia. f_equal. lia.
Qed.

Lemma digits_gt m : 0 < m -> m < 2 ^ Zdigits2 m.
Proof. destruct m as [|p|p]; try lia. intros _. apply digits_bounds. Qed.

Lemma digits_pos m : 0 < m -> 0 < Zdigits2 m.
Proof. destruct m as [|p|p]; try lia. reflexivity. Qed.

Lemma pow2_pos e : (0 < pow2 e)%Q.
Proof. apply Qpower_0_lt. reflexivity. Qed.

Lemma pow2_add a b : (pow2 (a + b) == pow2 a * pow2 b)%Q.
Proof. apply Qpower_plus. discriminate. Qed.

Lemma pow2_le a b : a <= b -> (pow2 a <= pow2 b)%Q.
Proof. intros. apply Qpower_le_compat_l; [assumption|discriminate]. Qed.

Lemma pow2_Z k : 0 <= k -> (pow2 k == inject_Z (2 ^ k))%Q.
Proof. intros. unfold pow2. by rewrite Zpower_Qpower. Qed.

(** [binary_round_aux] on [m * 2^e], where [m] with its location stands
    for [P / D]: the result is [m2 * 2^e1], with [m2] within a half of
    [P / (D * 2^(e1 - e))]. *)
Lemma round_aux_spec m e l P D :
  0 < m -> 0 < D -> inrec P D (shr_record_of_loc m l) ->
  let e1 := Z.max e (fexp PyFloat.prec PyFloat.emax (Zdigits2 m + e)) in
  e1 < 971 ->
  exists m2,
    0 <= m2
    /\ Z.abs (2 * (m2 * (2 ^ (e1 - e) * D) - P)) <= 2 ^ (e1 - e) * D
    /\ (l = loc_Exact -> e1 = e -> m2 = m)
    /\ nonneg (binary_round_aux PyFloat.prec PyFloat.emax false m e l)
    /\ (PyFloat.to_Q (binary_round_aux PyFloat.prec PyFloat.emax false m e l)
        == inject_Z m2 * pow2 e1)%Q.
Proof.
  intros Hm HD H e1 He1.
  unfold binary_round_aux, shr_fexp.
  set (n := fexp PyFloat.prec PyFloat.emax (Zdigits2 m + e) - e).
  assert (Hk : Z.max n 0 = e1 - e) by (subst n e1; lia).
  assert (He1a : e <= e1) by (subst e1; lia).
  assert (He1b : Zdigits2 m + e - 53 <= e1) by (subst e1; rewrite fexp_eq; lia).
  assert (Hemin : -1074 <= e1) by (subst e1; rewrite fexp_eq; lia).
  clearbody e1 n.
  pose proof (inrec_shr P D (shr_record_of_loc m l) e n HD
                ltac:(rewrite shr_m_of_loc; lia) H) as (H1 & E1 & Ee).
  destruct (shr (shr_record_of_loc m l) e n) as [mrs' e'].
  cbn [fst snd] in H1, E1, Ee. rewrite Hk in *. rewrite shr_m_of_loc in E1.
  assert (He' : e' = e1) by lia. clear Ee. subst e'.
  assert (Hp : 0 < 2 ^ (e1 - e)) by (apply Z.pow_pos_nonneg; lia).
  assert (Hm1 : 0 <= shr_m mrs') by (rewrite E1; apply Z.div_pos; lia).
  pose proof (round_nearest_even_spec P (2 ^ (e1 - e) * D) mrs' ltac:(nia) Hm1 H1)
    as (Hr & Hb & Hx).
  set (m2 := round_nearest_even (shr_m mrs') (loc_of_shr_record mrs')) in *.
  (* the first rounding leaves at most 53 bits, or 2^53 itself *)
  assert (Hm1' : shr_m mrs' < 2 ^ 53).
  { rewrite E1. apply Z.div_lt_upper_bound; [lia|].
    pose proof (digits_gt m Hm) as Hd.
    assert (Zdigits2 m <= 53 + (e1 - e)) by lia.
    eapply Z.lt_le_trans; [exact Hd|].
    rewrite (Z.mul_comm), <- Z.pow_add_r by lia.
    apply Z.pow_le_mono_r; lia. }
  exists m2. split; [lia|]. split; [exact Hr|]. split.
  { intros -> He. subst m2.
    rewrite He, Z.sub_diag, Z.pow_0_r in *. rewrite Z.div_1_r in E1.
    rewrite Z.mul_1_l in H1.
    unfold inrec in H; simpl in H.
    rewrite Hx; [exact E1| |];
      destruct mrs' as [a [] []]; unfold inrec in H1; simpl in *;
      subst; first [reflexivity | lia]. }
  destruct (Z.eq_dec m2 0) as [E0|N0].
  { (* rounded to zero *)
    rewrite E0. change (Zdigits2 0) with 0.
    rewrite fexp_eq.
    assert (En : Z.max (0 + e1 - 53) (-1074) - e1 <= 0) by lia.
    destruct (Z.max (0 + e1 - 53) (-1074) - e1) as [|q|q] eqn:Eq; try lia;
      cbn [shr shr_record_of_loc fst snd shr_m]; (split; [exact I|]);
      unfold PyFloat.to_Q; change (inject_Z 0) with 0%Q; ring. }
  destruct (Z.eq_dec m2 (2 ^ 53)) as [E53|N53].
  { (* carried into the next binade *)
    rewrite E53. change (Zdigits2 (2 ^ 53)) with 54. rewrite fexp_eq.
    replace (Z.max (54 + e1 - 53) (-1074) - e1) with 1 by lia.
    cbn [shr shr_record_of_loc iter_pos shr_1 fst snd shr_m].
    change (2 ^ 53) with 9007199254740992. cbn [shr_1 shr_m].
    assert (Hle : (e1 + 1 <=? PyFloat.emax - PyFloat.prec) = true)
      by (apply Z.leb_le; change (PyFloat.emax - PyFloat.prec) with 971; lia).
    rewrite Hle. split; [exact I|].
    unfold PyFloat.to_Q. fold (pow2 (e1 + 1)). rewrite pow2_add.
    change (pow2 1) with 2%Q.
    change (inject_Z 9007199254740992) with (inject_Z 4503599627370496 * 2)%Q.
    ring. }
  (* the common case: already in place *)
  assert (Hd2 : Zdigits2 m2 <= 53) by (apply digits_le; lia).
  rewrite fexp_eq.
  assert (En : Z.max (Zdigits2 m2 + e1 - 53) (-1074) - e1 <= 0) by lia.
  destruct m2 as [|p|p] eqn:Em2; try lia.
  destruct (Z.max (Zdigits2 (Zpos p) + e1 - 53) (-1074) - e1) as [|q|q] eqn:Eq;
    try lia; cbn [shr shr_record_of_loc fst snd shr_m];
    (assert (Hle : (e1 <=? PyFloat.emax - PyFloat.prec) = true)
       by (apply Z.leb_le; change (PyFloat.emax - PyFloat.prec) with 971; lia));
    rewrite Hle; split; try exact I; reflexivity.
Qed.

Lemma pow2_lt_1 k : k < 0 -> (pow2 k < 1)%Q.
Proof.
  intros Hk. change 1%Q with (pow2 0).
  apply Qpower_lt_compat_l; [assumption|reflexivity].
Qed.

(** a positive integer times [2^e] below [2^K] has at most [K - e] bits *)
Lemma digits_of_bound m e K :
  0 < m -> (inject_Z m * pow2 e < pow2 K)%Q -> Zdigits2 m + e <= K /\ e < K.
Proof.
  intros Hm H.
  assert (Hlt : (inject_Z m < pow2 (K - e))%Q).
  { replace K with ((K - e) + e) in H by lia. rewrite pow2_add in H.
    apply Qmult_lt_r in H; [exact H|apply pow2_pos]. }
  assert (H1 : (1 <= inject_Z m)%Q) by (rewrite <- (Zle_Qle 1); lia).
  destruct (Z.lt_ge_cases (K - e) 0) as [Hneg|Hpos].
  { pose proof (pow2_lt_1 _ Hneg). lra. }
  rewrite pow2_Z in Hlt by assumption. rewrite <- Zlt_Qlt in Hlt.
  pose proof (digits_le m (K - e) Hm Hlt).
  split; [lia|].
  destruct (Z.eq_dec (K - e) 0) as [E|]; [|lia].
  rewrite E in Hlt. simpl in Hlt. lia.
Qed.

Lemma half_bound (A B c : Q) :
  (- B <= 2 * A -> 2 * A <= B -> 0 <= c -> Qabs (A * c) <= B * c / 2)%Q.
Proof.
  intros H1 H2 Hc. apply Qabs_Qle_condition.
  assert ((- B) * c <= 2 * A * c)%Q by (apply Qmult_le_compat_r; assumption).
  assert (2 * A * c <= B * c)%Q by (apply Qmult_le_compat_r; assumption).
  split; setoid_replace (B * c / 2)%Q with ((B * c) * (1 # 2))%Q using relation Qeq by field; nra.
Qed.

Lemma Zabs_Qabs_le (a b : Z) (c : Q) :
  Z.abs (2 * a) <= b -> (0 <= c)%Q ->
  (Qabs (inject_Z a * c) <= inject_Z b * c / 2)%Q.
Proof.
  intros H Hc.
  assert (H1 : (inject_Z (- b) <= inject_Z (2 * a))%Q) by (rewrite <- Zle_Qle; lia).
  assert (H2 : (inject_Z (2 * a) <= inject_Z b)%Q) by (rewrite <- Zle_Qle; lia).
  rewrite inject_Z_mult in H1, H2. rewrite inject_Z_opp in H1.
  change (inject_Z 2) with 2%Q in *.
  by apply half_bound.
Qed.

(** rounding an exact [m * 2^e] below [2^K]: at most half a unit in the
    last place of the binade of [2^K] away *)
Lemma round_exact_bound m e K :
  0 < m -> (inject_Z m * pow2 e < pow2 K)%Q -> -1021 <= K <= 971 ->
  let f := binary_round_aux PyFloat.prec PyFloat.emax false m e loc_Exact in
  nonneg f
  /\ (Qabs (PyFloat.to_Q f - inject_Z m * pow2 e) <= pow2 (K - 54))%Q.
Proof.
  intros Hm HK HKr f. subst f.
  destruct (digits_of_bound m e K Hm HK) as [Hd He].
  assert (Hin : inrec m 1 (shr_record_of_loc m loc_Exact))
    by (unfold inrec; simpl; lia).
  pose proof (round_aux_spec m e loc_Exact m 1 Hm ltac:(lia) Hin) as Hs.
  cbv zeta in Hs.
  set (e1 := Z.max e (fexp PyFloat.prec PyFloat.emax (Zdigits2 m + e))) in *.
  assert (He1 : e1 <= Z.max e (K - 53))
    by (subst e1; rewrite fexp_eq; lia).
  assert (He1' : e <= e1) by (subst e1; lia).
  destruct Hs as (m2 & Hm2 & Hr & Hx & Hn & Hq); [lia|].
  split; [exact Hn|]. rewrite Hq.
  destruct (Z.eq_dec e1 e) as [E|N].
  - rewrite (Hx eq_refl E), E.
    setoid_replace (inject_Z m * pow2 e - inject_Z m * pow2 e)%Q with 0%Q using relation Qeq by ring.
    simpl. apply Qlt_le_weak, pow2_pos.
  - assert (Hk : 0 < e1 - e) by lia.
    setoid_replace (inject_Z m2 * pow2 e1 - inject_Z m * pow2 e)%Q
      with (inject_Z (m2 * 2 ^ (e1 - e) - m) * pow2 e)%Q using relation Qeq.
    2:{ replace e1 with ((e1 - e) + e) at 1 by lia.
        rewrite pow2_add, pow2_Z by lia.
        unfold Zminus. rewrite inject_Z_plus, inject_Z_opp, inject_Z_mult. ring. }
    rewrite Z.mul_1_r in Hr.
    pose proof (Zabs_Qabs_le _ _ (pow2 e) Hr (Qlt_le_weak _ _ (pow2_pos e))) as Hb.
    eapply Qle_trans; [exact Hb|].
    rewrite <- pow2_Z by lia. rewrite <- pow2_add.
    replace (e1 - e + e) with ((e1 - 1) + 1) by lia. rewrite pow2_add.
    change (pow2 1) with 2%Q.
    setoid_replace (pow2 (e1 - 1) * 2 / 2)%Q with (pow2 (e1 - 1)) using relation Qeq by field.
    apply pow2_le. lia.
Qed.

Lemma iter_xO m d : Zpos (Pos.iter xO m d) = Zpos m * 2 ^ Zpos d.
Proof.
  induction d as [|d IH] using Pos.peano_ind.
  - simpl. lia.
  - rewrite Pos.iter_succ, Pos2Z.inj_xO, IH, Pos2Z.inj_succ, Z.pow_succ_r by lia.
    ring.
Qed.

Lemma shl_align_spec m e e' :
  let '(mz, ez) := shl_align m e e' in
  (inject_Z (Zpos mz) * pow2 ez == inject_Z (Zpos m) * pow2 e)%Q
  /\ ez = Z.min e e' /\ Zpos mz = Zpos m * 2 ^ (e - ez).
Proof.
  unfold shl_align. destruct (e' - e) as [|d|d] eqn:E.
  - rewrite Z.min_l, Z.sub_diag by lia. repeat split; [lia].
  - rewrite Z.min_l, Z.sub_diag by lia. repeat split; [lia].
  - rewrite Z.min_r by lia. rewrite iter_xO.
    replace (e - e') with (Zpos d) by lia. repeat split.
    assert (E2 : (pow2 e == pow2 (Zpos d) * pow2 e')%Q)
      by (rewrite <- pow2_add; f_equiv; lia).
    rewrite inject_Z_mult, <- pow2_Z, E2 by lia. ring.
Qed.

Lemma binary_round_bound m e K :
  (inject_Z (Zpos m) * pow2 e < pow2 K)%Q -> -1021 <= K <= 971 ->
  let f := binary_round PyFloat.prec PyFloat.emax false m e in
  nonneg f
  /\ (Qabs (PyFloat.to_Q f - inject_Z (Zpos m) * pow2 e) <= pow2 (K - 54))%Q.
Proof.
  intros HK HKr. unfold binary_round.
  pose proof (shl_align_spec m e
                (fexp PyFloat.prec PyFloat.emax (Zpos (digits2_pos m) + e))) as H.
  destruct (shl_align m e _) as [mz ez]. destruct H as (Hv & _ & _).
  rewrite <- Hv in *. apply round_exact_bound; [lia|assumption|assumption].
Qed.

(** the value of a non-negative double, and its bits *)
Lemma to_Q_nonneg f : nonneg f -> (0 <= PyFloat.to_Q f)%Q.
Proof.
  destruct f as [[]|[]| |[] m e]; simpl; try contradiction; intros _; try lra.
  apply Qmult_le_0_compat; [rewrite <- (Zle_Qle 0); lia|].
  apply Qlt_le_weak, (pow2_pos e).
Qed.

Lemma to_Q_finite m e :
  (PyFloat.to_Q (S754_finite false m e) == inject_Z (Zpos m) * pow2 e)%Q.
Proof. reflexivity. Qed.

Lemma Qabs_0_le_pow2 k (q : Q) : (q == 0)%Q -> (Qabs q <= pow2 k)%Q.
Proof. intros ->. simpl. apply Qlt_le_weak, pow2_pos. Qed.

Lemma mul_bound a b K :
  nonneg a -> nonneg b ->
  (PyFloat.to_Q a * PyFloat.to_Q b < pow2 K)%Q -> -1021 <= K <= 971 ->
  nonneg (PyFloat.mul a b)
  /\ (Qabs (PyFloat.to_Q (PyFloat.mul a b) - PyFloat.to_Q a * PyFloat.to_Q b)
      <= pow2 (K - 54))%Q.
Proof.
  intros Ha Hb HK HKr.
  destruct a as [[]|[]| |[] ma ea]; try contradiction;
    destruct b as [[]|[]| |[] mb eb]; try contradiction;
    try (split; [exact I|]; apply Qabs_0_le_pow2; simpl; ring).
  unfold PyFloat.mul, SFmul. cbn [xorb].
  rewrite !to_Q_finite in *.
  assert (E : (inject_Z (Zpos ma) * pow2 ea * (inject_Z (Zpos mb) * pow2 eb)
               == inject_Z (Zpos (ma * mb)) * pow2 (ea + eb))%Q).
  { rewrite Pos2Z.inj_mul, inject_Z_mult, pow2_add. ring. }
  rewrite E in *. apply round_exact_bound; [lia|assumption|assumption].
Qed.

(** both operands brought to the smaller exponent *)
Lemma aligned ma ea mb eb :
  let ez := Z.min ea eb in
  let a' := Zpos (fst (shl_align ma ea ez)) in
  let b' := Zpos (fst (shl_align mb eb ez)) in
  (inject_Z a' * pow2 ez == inject_Z (Zpos ma) * pow2 ea)%Q
  /\ (inject_Z b' * pow2 ez == inject_Z (Zpos mb) * pow2 eb)%Q.
Proof.
  intros ez a' b'. subst a' b'.
  pose proof (shl_align_spec ma ea ez) as Ha.
  pose proof (shl_align_spec mb eb ez) as Hb.
  destruct (shl_align ma ea ez) as [ma' ea'], (shl_align mb eb ez) as [mb' eb'].
  cbn [fst]. destruct Ha as (Ha & Ea & _), Hb as (Hb & Eb & _).
  assert (ea' = ez) by (subst ez; lia). assert (eb' = ez) by (subst ez; lia).
  clear Ea Eb. subst ea' eb'. split; assumption.
Qed.

Lemma normalize_bound M e K :
  0 <= M -> (inject_Z M * pow2 e < pow2 K)%Q -> -1021 <= K <= 971 ->
  let f := binary_normalize PyFloat.prec PyFloat.emax M e false in
  nonneg f /\ (Qabs (PyFloat.to_Q f - inject_Z M * pow2 e) <= pow2 (K - 54))%Q.
Proof.
  intros HM HK HKr. destruct M as [|m|m]; [| |lia]; cbn [binary_normalize].
  - split; [exact I|]. apply Qabs_0_le_pow2. simpl. ring.
  - by apply binary_round_bound.
Qed.

Lemma add_bound a b K :
  nonneg a -> nonneg b ->
  (PyFloat.to_Q a + PyFloat.to_Q b < pow2 K)%Q -> -1021 <= K <= 971 ->
  nonneg (PyFloat.add a b)
  /\ (Qabs (PyFloat.to_Q (PyFloat.add a b) - (PyFloat.to_Q a + PyFloat.to_Q b))
      <= pow2 (K - 54))%Q.
Proof.
  intros Ha Hb HK HKr.
  destruct a as [[]|[]| |[] ma ea]; try contradiction;
    destruct b as [[]|[]| |[] mb eb]; try contradiction;
    try (split; [exact I|]; apply Qabs_0_le_pow2; simpl; ring).
  unfold PyFloat.add, SFadd. cbn [cond_Zopp].
  destruct (aligned ma ea mb eb) as [Ea Eb]. cbv zeta in Ea, Eb.
  rewrite !to_Q_finite in *. rewrite <- Ea, <- Eb in *.
  set (a' := Zpos (fst (shl_align ma ea (Z.min ea eb)))) in *.
  set (b' := Zpos (fst (shl_align mb eb (Z.min ea eb)))) in *.
  assert (E : (inject_Z a' * pow2 (Z.min ea eb) + inject_Z b' * pow2 (Z.min ea eb)
               == inject_Z (a' + b') * pow2 (Z.min ea eb))%Q)
    by (rewrite inject_Z_plus; ring).
  rewrite E in *. apply normalize_bound; [subst a' b'; lia|assumption|assumption].
Qed.

Lemma sub_bound a b K :
  nonneg a -> nonneg b -> (PyFloat.to_Q b <= PyFloat.to_Q a)%Q ->
  (PyFloat.to_Q a - PyFloat.to_Q b < pow2 K)%Q -> -1021 <= K <= 971 ->
  nonneg (PyFloat.sub a b)
  /\ (Qabs (PyFloat.to_Q (PyFloat.sub a b) - (PyFloat.to_Q a - PyFloat.to_Q b))
      <= pow2 (K - 54))%Q.
Proof.
  intros Ha Hb Hle HK HKr.
  destruct a as [[]|[]| |[] ma ea]; try contradiction;
    destruct b as [[]|[]| |[] mb eb]; try contradiction;
    try (split; [exact I|]; apply Qabs_0_le_pow2; simpl; ring).
  { (* 0 - b with b positive: excluded *)
    exfalso. rewrite to_Q_finite in Hle. simpl in Hle.
    assert (0 < inject_Z (Zpos mb) * pow2 eb)%Q.
    { apply Qmult_lt_0_compat; [rewrite <- (Zlt_Qlt 0); lia|apply pow2_pos]. }
    lra. }
  unfold PyFloat.sub, SFsub. cbn [cond_Zopp].
  destruct (aligned ma ea mb eb) as [Ea Eb]. cbv zeta in Ea, Eb.
  rewrite !to_Q_finite in *. rewrite <- Ea, <- Eb in *.
  set (a' := Zpos (fst (shl_align ma ea (Z.min ea eb)))) in *.
  set (b' := Zpos (fst (shl_align mb eb (Z.min ea eb)))) in *.
  assert (E : (inject_Z a' * pow2 (Z.min ea eb) - inject_Z b' * pow2 (Z.min ea eb)
               == inject_Z (a' - b') * pow2 (Z.min ea eb))%Q)
    by (unfold Z.sub; rewrite inject_Z_plus, inject_Z_opp; ring).
  rewrite E in *. apply normalize_bound; [|assumption|assumption].
  apply Qmult_le_r in Hle; [|apply pow2_pos].
  rewrite <- Zle_Qle in Hle. lia.
Qed.

(** the location [SFdiv_core_binary] gives a remainder *)
Lemma new_location_inrec D r q :
  0 < D -> 0 <= r < D ->
  inrec (q * D + r) D (shr_record_of_loc q (new_location D r)).
Proof.
  intros HD Hr. unfold new_location, new_location_even, new_location_odd.
  destruct (Z.even D) eqn:Ev.
  - destruct (Z.eqb_spec r 0) as [->|Hn]; [unfold inrec; simpl; lia|].
    destruct (Z.compare_spec (2 * r) D); unfold inrec; simpl; lia.
  - destruct (Z.eqb_spec r 0) as [->|Hn]; [unfold inrec; simpl; lia|].
    assert (Ho : Z.odd D = true) by (rewrite <- Z.negb_even, Ev; reflexivity).
    apply Z.odd_spec in Ho. destruct Ho as [h Ho].
    destruct (Z.compare_spec (2 * r + 1) D); unfold inrec; simpl; lia.
Qed.

Lemma pow2_lt_inv a b : (pow2 a < pow2 b)%Q -> a < b.
Proof. intros H. apply (Qpower_lt_compat_l_inv 2); [exact H|reflexivity]. Qed.

Lemma pow2_opp k : (pow2 k * pow2 (- k) == 1)%Q.
Proof. rewrite <- pow2_add, Z.add_opp_diag_r. reflexivity. Qed.

(** true division of two positive integers *)
Lemma div_bound y s K :
  0 < y < 2 ^ 1000 -> 0 < s < 2 ^ 1000 ->
  (inject_Z y / inject_Z s < pow2 K)%Q -> -1021 <= K <= 971 ->
  let f := PyFloat.int_true_div y s in
  nonneg f
  /\ (Qabs (PyFloat.to_Q f - inject_Z y / inject_Z s) <= pow2 (K - 54))%Q.
Proof.
  intros [Hy Hy'] [Hs Hs'] HK HKr.
  destruct y as [|my|my]; try lia. destruct s as [|ms|ms]; try lia.
  cbv zeta. unfold PyFloat.int_true_div, SFdiv_core_binary.
  change (Z.abs (Zpos my)) with (Zpos my). change (Z.abs (Zpos ms)) with (Zpos ms).
  change (Zpos my <? 0) with false. change (Zpos ms <? 0) with false.
  cbn [xorb].
  set (d1 := Zdigits2 (Zpos my)). set (d2 := Zdigits2 (Zpos ms)).
  match goal with |- context [Z.min ?a ?b] => set (e' := Z.min a b) end.
  match goal with |- context [Z.div_eucl ?a _] => set (m' := a) end.
  assert (Hd1 : 2 ^ (d1 - 1) <= Zpos my < 2 ^ d1) by apply digits_bounds.
  assert (Hd2 : 2 ^ (d2 - 1) <= Zpos ms < 2 ^ d2) by apply digits_bounds.
  assert (Hd1p : 0 < d1) by reflexivity. assert (Hd2p : 0 < d2) by reflexivity.
  assert (Hd1u : d1 <= 1000) by (apply digits_le; lia).
  assert (Hd2u : d2 <= 1000) by (apply digits_le; lia).
  assert (He' : e' = Z.min (d1 - d2 - 53) 0)
    by (subst e'; rewrite fexp_eq; lia).
  assert (Hm' : m' = Zpos my * 2 ^ (- e')).
  { subst m'. replace (0 - 0 - e') with (- e') by lia.
    destruct (- e') as [|p|p] eqn:E; try lia.
    apply Z.shiftl_mul_pow2. lia. }
  clearbody m' e'.
  assert (Hpe : 0 < 2 ^ (- e')) by (apply Z.pow_pos_nonneg; lia).
  (* the quotient and its location *)
  pose proof (Z.div_mod m' (Zpos ms) ltac:(lia)) as Hdm.
  pose proof (Z.mod_pos_bound m' (Zpos ms) ltac:(lia)) as Hr.
  unfold Z.div, Z.modulo in Hdm, Hr.
  destruct (Z.div_eucl m' (Zpos ms)) as [q r].
  assert (Hin : inrec m' (Zpos ms) (shr_record_of_loc q (new_location (Zpos ms) r))).
  { replace m' with (q * Zpos ms + r) by lia.
    apply new_location_inrec; lia. }
  (* the quotient is positive *)
  assert (Hq : 0 < q).
  { assert (Zpos ms <= m'); [|nia].
    rewrite Hm'.
    assert (2 ^ d2 <= 2 ^ (d1 - 1) * 2 ^ (- e')); [|nia].
    rewrite <- Z.pow_add_r by lia. apply Z.pow_le_mono_r; lia. }
  (* the value, as a rational *)
  assert (HX : (inject_Z (Zpos my) / inject_Z (Zpos ms)
                == inject_Z m' / inject_Z (Zpos ms) * pow2 e')%Q).
  { rewrite Hm', inject_Z_mult, <- pow2_Z by lia.
    pose proof (pow2_opp (- e')) as Ho. rewrite Z.opp_involutive in Ho.
    assert (~ inject_Z (Zpos ms) == 0)%Q by discriminate.
    setoid_replace (inject_Z (Zpos my) * pow2 (- e') / inject_Z (Zpos ms) * pow2 e')%Q
      with (inject_Z (Zpos my) / inject_Z (Zpos ms) * (pow2 (- e') * pow2 e'))%Q
      using relation Qeq by (field; assumption).
    rewrite Ho. ring. }
  assert (HD0 : (0 < inject_Z (Zpos ms))%Q) by (rewrite <- (Zlt_Qlt 0); lia).
  (* exponents *)
  assert (Hqe : Zdigits2 q + e' <= K).
  { apply digits_of_bound; [assumption|].
    eapply Qle_lt_trans; [|exact HK]. rewrite HX.
    apply Qmult_le_compat_r; [|apply Qlt_le_weak, pow2_pos].
    apply Qle_shift_div_l; [assumption|].
    rewrite <- inject_Z_mult, <- Zle_Qle. lia. }
  assert (Hee : e' <= K - 53).
  { assert (d1 - d2 - 1 < K); [|lia].
    apply pow2_lt_inv. eapply Qle_lt_trans; [|exact HK].
    apply Qle_shift_div_l; [assumption|].
    destruct (Z.le_gt_cases d2 (d1 - 1)) as [Hc|Hc].
    - rewrite pow2_Z, <- inject_Z_mult, <- Zle_Qle by lia.
      assert (2 ^ (d1 - d2 - 1) * 2 ^ d2 <= 2 ^ (d1 - 1)); [|nia].
      rewrite <- Z.pow_add_r by lia. apply Z.pow_le_mono_r; lia.
    - (* 2^(d1-d2-1) * s < 2^(d1-1) <= y, with a negative exponent *)
      assert (Hs2 : (inject_Z (Zpos ms) * pow2 (d1 - d2 - 1)
                     <= pow2 d2 * pow2 (d1 - d2 - 1))%Q).
      { apply Qmult_le_compat_r; [|apply Qlt_le_weak, pow2_pos].
        rewrite pow2_Z, <- Zle_Qle by lia. lia. }
      rewrite <- pow2_add in Hs2.
      replace (d2 + (d1 - d2 - 1)) with (d1 - 1) in Hs2 by lia.
      rewrite (pow2_Z (d1 - 1)) in Hs2 by lia.
      assert (inject_Z (2 ^ (d1 - 1)) <= inject_Z (Zpos my))%Q
        by (rewrite <- Zle_Qle; lia).
      lra. }
  pose proof (round_aux_spec q e' (new_location (Zpos ms) r) m' (Zpos ms)
                Hq ltac:(lia) Hin) as Hs0.
  cbv zeta in Hs0.
  set (e1 := Z.max e' (fexp PyFloat.prec PyFloat.emax (Zdigits2 q + e'))) in *.
  assert (He1 : e1 <= K - 53) by (subst e1; rewrite fexp_eq; lia).
  assert (He1' : e' <= e1) by (subst e1; lia).
  clearbody e1.
  destruct Hs0 as (m2 & Hm2 & Hrd & _ & Hn & Hq2); [lia|].
  split; [exact Hn|]. rewrite Hq2, HX.
  assert (Hpk : 0 < 2 ^ (e1 - e')) by (apply Z.pow_pos_nonneg; lia).
  setoid_replace (inject_Z m2 * pow2 e1
                  - inject_Z m' / inject_Z (Zpos ms) * pow2 e')%Q
    with (inject_Z (m2 * (2 ^ (e1 - e') * Zpos ms) - m')
          * (pow2 e' / inject_Z (Zpos ms)))%Q using relation Qeq.
  2:{ replace e1 with ((e1 - e') + e') at 1 by lia.
      rewrite pow2_add, pow2_Z by lia.
      unfold Z.sub at 2. rewrite inject_Z_plus, inject_Z_opp, !inject_Z_mult.
      field. discriminate. }
  assert (Hc : (0 <= pow2 e' / inject_Z (Zpos ms))%Q).
  { apply Qle_shift_div_l; [assumption|].
    rewrite Qmult_0_l. apply Qlt_le_weak, pow2_pos. }
  eapply Qle_trans; [exact (Zabs_Qabs_le _ _ _ Hrd Hc)|].
  rewrite inject_Z_mult, <- pow2_Z by lia.
  setoid_replace (pow2 (e1 - e') * inject_Z (Zpos ms)
                  * (pow2 e' / inject_Z (Zpos ms)) / 2)%Q
    with (pow2 (e1 - e') * pow2 e' / 2)%Q using relation Qeq
    by (field; discriminate).
  rewrite <- pow2_add. replace (e1 - e' + e') with ((e1 - 1) + 1) by lia.
  rewrite pow2_add. change (pow2 1) with 2%Q.
  setoid_replace (pow2 (e1 - 1) * 2 / 2)%Q with (pow2 (e1 - 1))
    using relation Qeq by field.
  apply pow2_le. lia.
Qed.

(** [int(x)] is the floor of a non-negative double *)
Lemma to_int_floor f : nonneg f -> PyFloat.to_int f = Qfloor (PyFloat.to_Q f).
Proof.
  destruct f as [[]|[]| |[] m e]; try contradiction; intros _; [reflexivity|].
  unfold PyFloat.to_int. rewrite to_Q_finite. destruct e as [|p|p].
  - rewrite Z.shiftl_0_r. rewrite (Qfloor_comp _ (inject_Z (Zpos m))).
    + by rewrite Qfloor_Z.
    + change (pow2 0) with 1%Q. ring.
  - rewrite Z.shiftl_mul_pow2 by lia.
    rewrite (Qfloor_comp _ (inject_Z (Zpos m * 2 ^ Zpos p))).
    + by rewrite Qfloor_Z.
    + rewrite inject_Z_mult, pow2_Z by lia. reflexivity.
  - rewrite Z.shiftr_div_pow2 by lia.
    rewrite (Qfloor_comp _ (Zpos m # (2 ^ p)%positive)).
    + simpl. by rewrite Pos2Z.inj_pow.
    + rewrite Qmake_Qdiv, Pos2Z.inj_pow, <- pow2_Z by lia.
      change (Zneg p) with (- Zpos p). unfold pow2 at 1. rewrite Qpower_opp.
      reflexivity.
Qed.

Lemma to_int_mono f g :
  nonneg f -> nonneg g -> (PyFloat.to_Q f <= PyFloat.to_Q g)%Q ->
  PyFloat.to_int f <= PyFloat.to_int g.
Proof.
  intros Hf Hg H. rewrite !to_int_floor by assumption. by apply Qfloor_resp_le.
Qed.

Lemma to_int_between f n :
  nonneg f -> (inject_Z n <= PyFloat.to_Q f)%Q ->
  (PyFloat.to_Q f < inject_Z (n + 1))%Q -> PyFloat.to_int f = n.
Proof.
  intros Hf Hl Hu. rewrite to_int_floor by assumption.
  pose proof (Qfloor_le (PyFloat.to_Q f)) as H1.
  pose proof (Qlt_floor (PyFloat.to_Q f)) as H2.
  assert (H3 : (inject_Z (Qfloor (PyFloat.to_Q f)) < inject_Z (n + 1))%Q) by lra.
  assert (H4 : (inject_Z n < inject_Z (Qfloor (PyFloat.to_Q f) + 1))%Q) by lra.
  rewrite <- Zlt_Qlt in H3, H4. lia.
Qed.

Lemma ratio_bound y s :
  0 < s < 2 ^ 31 -> 0 <= y < s ->
  nonneg (PyFloat.int_true_div y s)
  /\ (Qabs (PyFloat.to_Q (PyFloat.int_true_div y s) - inject_Z y / inject_Z s)
      <= pow2 (-54))%Q.
Proof.
  intros Hs Hy. destruct (Z.eq_dec y 0) as [->|Hn].
  - destruct s as [|p|p]; try lia. split; [exact I|].
    apply Qabs_0_le_pow2. simpl. unfold Qdiv. ring.
  - assert (Hp : 2 ^ 31 < 2 ^ 1000) by (apply Z.pow_lt_mono_r; lia).
    apply (div_bound y s 0); [lia|lia| |lia].
    apply Qlt_shift_div_r; [rewrite <- (Zlt_Qlt 0); lia|].
    change (pow2 0) with 1%Q. rewrite Qmult_1_l, <- Zlt_Qlt. lia.
Qed.

Lemma ratio_range y s :
  0 < s < 2 ^ 31 -> 0 <= y < s ->
  (0 <= inject_Z y / inject_Z s <= 1 - (1 # 2147483648))%Q.
Proof.
  intros Hs Hy.
  assert (HS : (0 < inject_Z s)%Q) by (rewrite <- (Zlt_Qlt 0); lia).
  assert (HY : (0 <= inject_Z y)%Q) by (rewrite <- (Zle_Qle 0); lia).
  assert (HYS : (inject_Z y <= inject_Z (s + -1))%Q) by (rewrite <- Zle_Qle; lia).
  rewrite inject_Z_plus in HYS. change (inject_Z (-1)) with (-1)%Q in HYS.
  assert (HS' : (inject_Z s <= 2147483648)%Q).
  { change 2147483648%Q with (inject_Z (2 ^ 31)). rewrite <- Zle_Qle. lia. }
  split.
  - apply Qle_shift_div_l; [assumption|]. lra.
  - apply Qle_shift_div_r; [assumption|]. lra.
Qed.

Lemma abs_split (x y e : Q) : (Qabs (x - y) <= e -> y - e <= x <= y + e)%Q.
Proof. intros H. apply Qabs_Qle_condition in H. lra. Qed.

Lemma blend_error d sl y s :
  In (d, sl) channel_pairs -> 0 < s < 2 ^ 31 -> 0 <= y < s ->
  let v := blend_float d sl (PyFloat.int_true_div y s) in
  nonneg v
  /\ (Qabs (PyFloat.to_Q v - exact_blend d sl s y) <= pow2 (-44))%Q.
Proof.
  intros Hin Hs Hy v. subst v.
  destruct (ratio_bound y s Hs Hy) as [Hrn Hr].
  pose proof (ratio_range y s Hs Hy) as Hrho.
  unfold exact_blend, blend_float.
  set (rho := (inject_Z y / inject_Z s)%Q) in *.
  set (r := PyFloat.int_true_div y s) in *.
  apply abs_split in Hr. change (pow2 (-54)) with (1 # 18014398509481984)%Q in Hr.
  pose proof (to_Q_nonneg r Hrn) as Hr0.
  assert (H1n : nonneg (PyFloat.of_int 1)) by exact I.
  assert (H1q : (PyFloat.to_Q (PyFloat.of_int 1) == 1)%Q) by reflexivity.
  destruct (sub_bound (PyFloat.of_int 1) r 1 H1n Hrn) as [Htn Ht];
    [rewrite H1q; lra | rewrite H1q; change (pow2 1) with 2%Q; lra | lia |].
  rewrite H1q in Ht. apply abs_split in Ht.
  change (pow2 (1 - 54)) with (1 # 9007199254740992)%Q in Ht.
  set (t := PyFloat.sub (PyFloat.of_int 1) r) in *.
  pose proof (to_Q_nonneg t Htn) as Ht0.
  unfold channel_pairs in Hin. simpl in Hin.
  destruct Hin as [E|[E|[E|[]]]]; injection E as <- <-;
    match goal with
    | |- context [PyFloat.mul (PyFloat.of_int ?d) t] =>
      match goal with
      | |- context [PyFloat.mul (PyFloat.of_int ?sl) r] =>
        assert (Hdn : nonneg (PyFloat.of_int d)) by exact I;
        assert (Hdq : (PyFloat.to_Q (PyFloat.of_int d) == inject_Z d)%Q)
          by reflexivity;
        assert (Hsn : nonneg (PyFloat.of_int sl)) by exact I;
        assert (Hsq : (PyFloat.to_Q (PyFloat.of_int sl) == inject_Z sl)%Q)
          by reflexivity;
        destruct (mul_bound (PyFloat.of_int d) t 7 Hdn Htn) as [Han Ha];
          [rewrite Hdq; change (pow2 7) with 128%Q; unfold inject_Z; lra | lia |];
        destruct (mul_bound (PyFloat.of_int sl) r 7 Hsn Hrn) as [Hbn Hb];
          [rewrite Hsq; change (pow2 7) with 128%Q; unfold inject_Z; lra | lia |];
        rewrite Hdq in Ha; rewrite Hsq in Hb;
        apply abs_split in Ha; apply abs_split in Hb;
        change (pow2 (7 - 54)) with (1 # 140737488355328)%Q in Ha, Hb;
        unfold inject_Z in Ha, Hb;
        destruct (add_bound _ _ 8 Han Hbn) as [Hvn Hv];
          [change (pow2 8) with 256%Q; lra | lia |];
        apply abs_split in Hv;
        change (pow2 (8 - 54)) with (1 # 70368744177664)%Q in Hv;
        split; [exact Hvn|];
        apply Qabs_Qle_condition;
        change (pow2 (-44)) with (1 # 17592186044416)%Q;
        (let x := eval vm_compute in (inject_Z (sl - d)) in
         change (inject_Z (sl - d)) with x);
        unfold inject_Z; lra
      end
    end.
Qed.

Lemma ratio_step y1 y2 s :
  0 < s < 2 ^ 31 -> y1 < y2 ->
  (inject_Z y1 / inject_Z s + (1 # 2147483648) <= inject_Z y2 / inject_Z s)%Q.
Proof.
  intros Hs Hy.
  assert (HS : (0 < inject_Z s)%Q) by (rewrite <- (Zlt_Qlt 0); lia).
  assert (HS' : (inject_Z s <= 2147483648)%Q).
  { change 2147483648%Q with (inject_Z (2 ^ 31)). rewrite <- Zle_Qle. lia. }
  assert (HY : (inject_Z y1 + 1 <= inject_Z y2)%Q).
  { change 1%Q with (inject_Z 1). rewrite <- inject_Z_plus, <- Zle_Qle. lia. }
  apply Qle_shift_div_l; [assumption|].
  setoid_replace ((inject_Z y1 / inject_Z s + (1 # 2147483648)) * inject_Z s)%Q
    with (inject_Z y1 + (1 # 2147483648) * inject_Z s)%Q using relation Qeq
    by (field; lra).
  lra.
Qed.

(** Down the rows no channel ever decreases. *)
Lemma blend_monotone d sl y1 y2 s :
  In (d, sl) channel_pairs -> 0 < s < 2 ^ 31 -> 0 <= y1 -> y1 < y2 -> y2 < s ->
  blend d sl (PyFloat.int_true_div y1 s) <= blend d sl (PyFloat.int_true_div y2 s).
Proof.
  intros Hin Hs H0 H12 H2. unfold blend.
  destruct (blend_error d sl y1 s Hin Hs ltac:(lia)) as [Hn1 He1].
  destruct (blend_error d sl y2 s Hin Hs ltac:(lia)) as [Hn2 He2].
  apply to_int_mono; [assumption|assumption|].
  pose proof (ratio_step y1 y2 s Hs H12) as Hst.
  apply abs_split in He1, He2. revert He1 He2.
  change (pow2 (-44)) with (1 # 17592186044416)%Q.
  unfold exact_blend.
  set (r1 := (inject_Z y1 / inject_Z s)%Q) in *.
  set (r2 := (inject_Z y2 / inject_Z s)%Q) in *.
  unfold channel_pairs in Hin. simpl in Hin.
  destruct Hin as [E|[E|[E|[]]]]; injection E as <- <-;
    match goal with
    | |- context [inject_Z (?a - ?b)] =>
      let x := eval vm_compute in (inject_Z (a - b)) in
      change (inject_Z (a - b)) with x
    end; unfold inject_Z; intros He1 He2; lra.
Qed.

(** From 26 pixels on, the last row is one below slate on every channel. *)
Lemma blend_last d sl s :
  In (d, sl) channel_pairs -> 26 <= s < 2 ^ 31 ->
  blend d sl (PyFloat.int_true_div (s - 1) s) = sl - 1.
Proof.
  intros Hin Hs. unfold blend.
  destruct (blend_error d sl (s - 1) s Hin ltac:(lia) ltac:(lia)) as [Hn He].
  pose proof (ratio_range (s - 1) s ltac:(lia) ltac:(lia)) as [_ Hup].
  assert (Hlo : ((25 # 26) <= inject_Z (s - 1) / inject_Z s)%Q).
  { assert (HS : (0 < inject_Z s)%Q) by (rewrite <- (Zlt_Qlt 0); lia).
    assert (HS' : (26 <= inject_Z s)%Q)
      by (change 26%Q with (inject_Z 26); rewrite <- Zle_Qle; lia).
    apply Qle_shift_div_l; [assumption|].
    replace (s - 1) with (s + -1) by lia.
    rewrite inject_Z_plus. change (inject_Z (-1)) with (-1)%Q. lra. }
  apply abs_split in He. revert He.
  change (pow2 (-44)) with (1 # 17592186044416)%Q.
  unfold exact_blend.
  set (r := (inject_Z (s - 1) / inject_Z s)%Q) in *.
  unfold channel_pairs in Hin. simpl in Hin.
  destruct Hin as [E|[E|[E|[]]]]; injection E as <- <-;
    match goal with
    | |- context [inject_Z (?a - ?b)] =>
      let x := eval vm_compute in (inject_Z (a - b)) in
      change (inject_Z (a - b)) with x
    end; intros He; apply to_int_between; try assumption;
    repeat match goal with
           | |- context [inject_Z ?z] =>
             let x := eval vm_compute in (inject_Z z) in
             progress change (inject_Z z) with x
           end;
    unfold inject_Z in *; lra.
Qed.

(** [float(n)] of a non-negative [int] below [2^K] *)
Lemma of_int_bound n K :
  0 <= n < 2 ^ K -> 0 <= K <= 971 ->
  nonneg (PyFloat.of_int n)
  /\ (Qabs (PyFloat.to_Q (PyFloat.of_int n) - inject_Z n) <= pow2 (K - 54))%Q.
Proof.
  intros Hn HK.
  assert (E : (inject_Z n == inject_Z n * pow2 0)%Q)
    by (change (pow2 0) with 1%Q; ring).
  rewrite E. apply normalize_bound; [lia| |lia].
  rewrite <- E, pow2_Z, <- Zlt_Qlt by lia. lia.
Qed.

Lemma product_below (a b A B : Q) :
  (0 <= a <= A -> 0 <= b <= B -> a * b <= A * B)%Q.
Proof.
  intros Ha Hb. apply Qle_trans with (A * b)%Q.
  - apply Qmult_le_compat_r; lra.
  - rewrite !(Qmult_comm A). apply Qmult_le_compat_r; lra.
Qed.

(** [k * x] stays a non-negative double when [k < 2^A] and [x <= 2^B] *)
Lemma int_times_float_nonneg n x A B :
  0 <= n < 2 ^ A -> 0 <= A -> 0 <= B -> A + B + 2 <= 971 ->
  nonneg x -> (PyFloat.to_Q x <= pow2 B)%Q ->
  nonneg (PyFloat.mul (PyFloat.of_int n) x)
  /\ (PyFloat.to_Q (PyFloat.mul (PyFloat.of_int n) x) <= pow2 (A + B + 2))%Q.
Proof.
  intros Hn HA HB HAB Hx Hxb.
  destruct (of_int_bound n A Hn ltac:(lia)) as [Hin Hie].
  apply abs_split in Hie.
  assert (HnA : (inject_Z n <= pow2 A)%Q)
    by (rewrite pow2_Z, <- Zle_Qle by lia; lia).
  assert (Hsmall : (pow2 (A - 54) <= pow2 A)%Q) by (apply pow2_le; lia).
  pose proof (to_Q_nonneg _ Hin) as Hi0. pose proof (to_Q_nonneg _ Hx) as Hx0.
  pose proof (pow2_pos A) as HpA. pose proof (pow2_pos B) as HpB.
  assert (Hprod : (PyFloat.to_Q (PyFloat.of_int n) * PyFloat.to_Q x
                   <= (2 * pow2 A) * pow2 B)%Q).
  { apply product_below; split; try assumption. lra. }
  assert (E1 : (pow2 (A + B + 1) == 2 * pow2 A * pow2 B)%Q).
  { rewrite !pow2_add. change (pow2 1) with 2%Q. ring. }
  assert (E2 : (pow2 (A + B + 2) == 4 * pow2 A * pow2 B)%Q).
  { rewrite !pow2_add. change (pow2 2) with 4%Q. ring. }
  assert (Hpp : (0 < pow2 A * pow2 B)%Q) by (apply Qmult_lt_0_compat; assumption).
  destruct (mul_bound (PyFloat.of_int n) x (A + B + 2) Hin Hx) as [Hmn Hme];
    [rewrite E2; lra | lia |].
  split; [exact Hmn|].
  apply abs_split in Hme.
  assert (Hs2 : (pow2 (A + B + 2 - 54) <= pow2 (A + B + 1))%Q)
    by (apply pow2_le; lia).
  rewrite E2. rewrite E1 in Hs2. lra.
Qed.

(** the literals are the doubles nearest to their decimals *)
Lemma literals_nearest :
  PyFloat.lit_0_3 = PyFloat.int_true_div 3 10
  /\ PyFloat.lit_0_7 = PyFloat.int_true_div 7 10
  /\ PyFloat.lit_0_15 = PyFloat.int_true_div 15 100
  /\ PyFloat.lit_0_25 = PyFloat.int_true_div 25 100
  /\ PyFloat.lit_0_55 = PyFloat.int_true_div 55 100
  /\ PyFloat.lit_0_75 = PyFloat.int_true_div 75 100
  /\ PyFloat.lit_0_5 = PyFloat.int_true_div 5 10.
Proof. repeat split. Qed.

Lemma scale_bound s :
  0 < s < 2 ^ 31 ->
  nonneg (scale_of s) /\ (PyFloat.to_Q (scale_of s) <= pow2 23)%Q.
Proof.
  intros Hs. unfold scale_of.
  assert (Hp : 2 ^ 31 < 2 ^ 1000) by (apply Z.pow_lt_mono_r; lia).
  assert (Hq : (inject_Z s / inject_Z 512 < pow2 22)%Q).
  { apply Qlt_shift_div_r; [reflexivity|].
    change (pow2 22 * inject_Z 512)%Q with (inject_Z (2 ^ 31)).
    rewrite <- Zlt_Qlt. lia. }
  destruct (div_bound s 512 22 ltac:(lia) ltac:(lia) Hq ltac:(lia)) as [Hn He].
  split; [exact Hn|]. apply abs_split in He.
  change (pow2 (22 - 54)) with (1 # 4294967296)%Q in He.
  change (pow2 22) with 4194304%Q in Hq. change (pow2 23) with 8388608%Q. lra.
Qed.

(** No [int(...)] of [create_icon] meets an infinity or a NaN for a size
    below [2^31]: its operands are the products [k * scale] (with [k] one
    of the constants, at most 280), the products of a size with a literal,
    and the blends of the gradient, and all are non-negative doubles. *)
Lemma int_operands_finite s :
  0 < s < 2 ^ 31 ->
  (forall k, 0 <= k <= 512 ->
     nonneg (PyFloat.mul (PyFloat.of_int k) (scale_of s))
     /\ 0 <= scaled k (scale_of s) < 2 ^ 40)
  /\ (forall n f,
        0 <= n < 2 ^ 40 ->
        In f [PyFloat.lit_0_3; PyFloat.lit_0_7; PyFloat.lit_0_15;
              PyFloat.lit_0_25; PyFloat.lit_0_55; PyFloat.lit_0_75;
              PyFloat.lit_0_5] ->
        nonneg (PyFloat.mul (PyFloat.of_int n) f))
  /\ (forall d sl y,
        In (d, sl) channel_pairs -> 0 <= y < s ->
        nonneg (blend_float d sl (PyFloat.int_true_div y s))).
Proof.
  intros Hs. destruct (scale_bound s Hs) as [Hsn Hsb].
  split; [|split].
  - intros k Hk.
    destruct (int_times_float_nonneg k (scale_of s) 10 23
                ltac:(change (2 ^ 10) with 1024; lia) ltac:(lia) ltac:(lia)
                ltac:(lia) Hsn Hsb) as [Hn Hb].
    split; [exact Hn|]. unfold scaled. rewrite to_int_floor by assumption.
    pose proof (to_Q_nonneg _ Hn) as H0.
    pose proof (Qfloor_resp_le _ _ H0) as Hf0.
    pose proof (Qfloor_resp_le _ _ Hb) as Hf1.
    change (Qfloor 0) with 0 in Hf0.
    change (Qfloor (pow2 (10 + 23 + 2))) with (2 ^ 35) in Hf1.
    split; [exact Hf0|]. eapply Z.le_lt_trans; [exact Hf1|]. reflexivity.
  - intros n f Hn Hf.
    apply (int_times_float_nonneg n f 40 0); try lia.
    + simpl in Hf. destruct Hf as [<-|[<-|[<-|[<-|[<-|[<-|[<-|[]]]]]]]]; exact I.
    + simpl in Hf.
      destruct Hf as [<-|[<-|[<-|[<-|[<-|[<-|[<-|[]]]]]]]]; vm_compute;
        discriminate.
  - intros d sl y Hin Hy. by apply blend_error.
Qed.

End Rounding.

(** ** C2: the colour of a gradient row *)

Lemma gradient_call env s y :
  0 <= y < s ->
  Image.ops (create_icon env s) !! Z.to_nat y = Some (gradient_line s y).
Proof.
  intros Hy. destruct (create_icon_calls env s) as (?&?&?&?&?&->).
  cbn [Image.ops]. rewrite lookup_app_l
    by (rewrite length_fmap, length_seqZ; lia).
  rewrite list_lookup_fmap, lookup_seqZ_lt by lia. simpl. do 2 f_equal. lia.
Qed.

(** At size 4, row 3 blends to (42.5, 61.75, 73.75): the script draws
    (42, 61, 73), rounding would give (42, 62, 74). *)
Lemma rows_rounded_counterexample : ~ rows_rounded no_fonts 4.
Proof.
  intros H. specialize (H 3 ltac:(lia)).
  rewrite gradient_call in H by lia. vm_compute in H. discriminate H.
Qed.

Lemma blend_near_exact d sl s y :
  In (d, sl) channel_pairs -> 0 < s < 2 ^ 31 -> 0 <= y < s ->
  Qfloor (exact_blend d sl s y - pow2 (-44))
  <= blend d sl (PyFloat.int_true_div y s)
  <= Qfloor (exact_blend d sl s y + pow2 (-44)).
Proof.
  intros Hin Hs Hy.
  destruct (Rounding.blend_error d sl y s Hin Hs Hy) as [Hn He].
  apply Rounding.abs_split in He. unfold blend.
  rewrite Rounding.to_int_floor by assumption.
  split; apply Qfloor_resp_le; lra.
Qed.

(** C2, amended. For every size [s] and row [0 <= y < s] the gradient
    draws row [y] as one line from [(0, y)] to [(s, y)] in the colour whose
    channels are [int(dark * (1 - ratio) + slate * ratio)], the float sum cut
    toward zero and not rounded, with [ratio = y / s], dark [(38, 43, 64)]
    and slate [(44, 68, 77)].  Below [2^31] pixels that is the floor of the
    exact blend [dark + (slate - dark) * y / s], up to the [2^-44] the
    five float operations may be off. *)
Theorem gradient_row_truncated (env : font_env) (s y : Z) :
  0 <= y < s ->
  let ratio := PyFloat.int_true_div y s in
  let cut dark slate :=
    PyFloat.to_int
      (PyFloat.add
         (PyFloat.mul (PyFloat.of_int dark) (PyFloat.sub (PyFloat.of_int 1) ratio))
         (PyFloat.mul (PyFloat.of_int slate) ratio)) in
  Image.ops (create_icon env s) !! Z.to_nat y
  = Some (Line [(0, y); (s, y)] [cut 38 44; cut 43 68; cut 64 77])
  /\ (s < 2 ^ 31 ->
      forall dark slate, In (dark, slate) channel_pairs ->
        Qfloor (exact_blend dark slate s y - pow2 (-44))
        <= cut dark slate
        <= Qfloor (exact_blend dark slate s y + pow2 (-44))).
Proof.
  intros Hy ratio cut. split; [by rewrite gradient_call|].
  intros Hs dark slate Hin. apply blend_near_exact; [assumption|lia|lia].
Qed.

Lemma gradient_row_truncated_witness :
  (let ratio := PyFloat.int_true_div 3 4 in
   let cut dark slate :=
     PyFloat.to_int
       (PyFloat.add
          (PyFloat.mul (PyFloat.of_int dark) (PyFloat.sub (PyFloat.of_int 1) ratio))
          (PyFloat.mul (PyFloat.of_int slate) ratio)) in
   Image.ops (create_icon no_fonts 4) !! Z.to_nat 3
   = Some (Line [(0, 3); (4, 3)] [cut 38 44; cut 43 68; cut 64 77])
   /\ (4 < 2 ^ 31 ->
       forall dark slate, In (dark, slate) channel_pairs ->
         Qfloor (exact_blend dark slate 4 3 - pow2 (-44))
         <= cut dark slate
         <= Qfloor (exact_blend dark slate 4 3 + pow2 (-44))))
  /\ gradient_color 4 3 = [42; 61; 73].
Proof.
  split; [|reflexivity]. apply (gradient_row_truncated no_fonts 4 3). lia.
Defined.

(** ** C3: the ends of the gradient and its order *)

Lemma key_steps_no_line env sx sy ks kr fnt scale entries :
  omap (fun op => match op with Line _ c => Some c | _ => None end)
       (flat_map (key_step_calls env sx sy ks kr fnt scale) entries) = [].
Proof.
  induction entries as [|e entries IH]; [reflexivity|].
  cbn [flat_map]. rewrite omap_app, IH. unfold key_step_calls.
  destruct (key_calls_shape env (sx + e.1 * scaled 40 scale) sy ks kr e.2.1
              e.2.2 fnt scale) as (? & ? & ? & ->).
  reflexivity.
Qed.

Lemma gradient_of_create_icon env s :
  gradient_of (create_icon env s) = gradient_color s <$> seqZ 0 s.
Proof.
  unfold gradient_of.
  destruct (create_icon_calls env s) as (xy1 & xy2 & xy3 & p0 & q0 & ->).
  cbn [Image.ops]. rewrite !omap_app, !key_steps_no_line.
  cbn [omap list_omap]. rewrite !app_nil_r.
  induction (seqZ 0 s) as [|y l IH]; [reflexivity|].
  cbn [fmap list_fmap omap list_omap gradient_line]. by rewrite <- IH.
Qed.

Lemma gradient_color_eq s y :
  gradient_color s y
  = [blend 38 44 (PyFloat.int_true_div y s);
     blend 43 68 (PyFloat.int_true_div y s);
     blend 64 77 (PyFloat.int_true_div y s)].
Proof. reflexivity. Qed.

Lemma gradient_color_top s : 0 < s -> gradient_color s 0 = SAPPHIRE_DARK.
Proof. destruct s as [|p|p]; try lia. intros _. reflexivity. Qed.

Lemma gradient_color_monotone s y1 y2 :
  0 < s < 2 ^ 31 -> 0 <= y1 -> y1 < y2 -> y2 < s ->
  channels_le (gradient_color s y1) (gradient_color s y2).
Proof.
  intros Hs H0 H12 H2. rewrite !gradient_color_eq.
  repeat constructor;
    apply Rounding.blend_monotone; try assumption; simpl; tauto.
Qed.

Lemma gradient_color_bottom s :
  25 <= s < 2 ^ 31 -> gradient_color s (s - 1) = [43; 67; 76].
Proof.
  intros Hs. destruct (Z.eq_dec s 25) as [->|Hn]; [reflexivity|].
  rewrite gradient_color_eq.
  rewrite !Rounding.blend_last by (first [lia | simpl; tauto]).
  reflexivity.
Qed.

Lemma small_gradients_miss_slate :
  forallb (fun s => negb (bool_decide (within_one (gradient_color s (s - 1))
                                                  SAPPHIRE_SLATE)))
          (seqZ 1 24) = true.
Proof. vm_compute. reflexivity. Qed.

Lemma last_gradient env s :
  0 < s -> last (gradient_of (create_icon env s)) = Some (gradient_color s (s - 1)).
Proof.
  intros Hs. rewrite gradient_of_create_icon, fmap_last.
  assert (E : seqZ 0 s = seqZ 0 (s - 1) ++ [s - 1]).
  { replace s with ((s - 1) + 1) at 1 by lia.
    rewrite seqZ_app by lia. reflexivity. }
  by rewrite E, last_snoc.
Qed.

Lemma gradient_of_lookup env s (y : nat) c :
  gradient_of (create_icon env s) !! y = Some c ->
  Z.of_nat y < s /\ c = gradient_color s (Z.of_nat y).
Proof.
  rewrite gradient_of_create_icon, list_lookup_fmap.
  destruct (seqZ 0 s !! y) as [z|] eqn:E; [|discriminate].
  apply lookup_seqZ in E as [-> Hy]. simpl. intros [= <-]. split; [lia|].
  f_equal.
Qed.

(** At size 16 the last row is (43, 66, 76): its green is 2 below slate. *)
Lemma gradient_as_specified_counterexample : ~ gradient_as_specified no_fonts 16.
Proof.
  intros (_ & (c & Hl & Hw) & _).
  rewrite last_gradient in Hl by lia. injection Hl as <-.
  revert Hw. apply (bool_decide_eq_false_1 (within_one _ _)).
  vm_compute. reflexivity.
Qed.

(** C3, amended. For every size [0 < s < 2^31]: the first gradient row
    is the dark colour (38, 43, 64); down the rows no channel ever
    decreases; from 25 pixels on the last row is (43, 67, 76), one below
    slate (44, 68, 77) on each channel, hence within one of it; below 25
    pixels (the exported size 16 among them) the last row is farther than
    one from slate. *)
Theorem gradient_ends_and_order (env : font_env) (s : Z) :
  0 < s < 2 ^ 31 ->
  let g := gradient_of (create_icon env s) in
  g !! 0%nat = Some SAPPHIRE_DARK
  /\ (forall (y1 y2 : nat) c1 c2,
        (y1 < y2)%nat -> g !! y1 = Some c1 -> g !! y2 = Some c2 ->
        channels_le c1 c2)
  /\ (25 <= s ->
      last g = Some [43; 67; 76] /\ within_one [43; 67; 76] SAPPHIRE_SLATE)
  /\ (s < 25 -> exists c, last g = Some c /\ ~ within_one c SAPPHIRE_SLATE).
Proof.
  intros Hs g. subst g. split; [|split; [|split]].
  - rewrite gradient_of_create_icon, list_lookup_fmap, lookup_seqZ_lt by lia.
    simpl. f_equal. apply gradient_color_top. lia.
  - intros y1 y2 c1 c2 Hy H1 H2.
    apply gradient_of_lookup in H1 as [Hy1 ->].
    apply gradient_of_lookup in H2 as [Hy2 ->].
    apply gradient_color_monotone; lia.
  - intros H25. rewrite last_gradient, gradient_color_bottom by lia.
    split; [reflexivity|]. unfold within_one, SAPPHIRE_SLATE.
    repeat constructor; simpl; lia.
  - intros H25. rewrite last_gradient by lia. eexists. split; [reflexivity|].
    pose proof small_gradients_miss_slate as H.
    rewrite forallb_forall in H.
    specialize (H s ltac:(apply list_elem_of_In, elem_of_seqZ; lia)).
    apply negb_true_iff, bool_decide_eq_false in H. exact H.
Qed.

Lemma gradient_ends_and_order_witness :
  let g := gradient_of (create_icon no_fonts 1024) in
  g !! 0%nat = Some SAPPHIRE_DARK
  /\ (forall (y1 y2 : nat) c1 c2,
        (y1 < y2)%nat -> g !! y1 = Some c1 -> g !! y2 = Some c2 ->
        channels_le c1 c2)
  /\ (25 <= 1024 ->
      last g = Some [43; 67; 76] /\ within_one [43; 67; 76] SAPPHIRE_SLATE)
  /\ (1024 < 25 -> exists c, last g = Some c /\ ~ within_one c SAPPHIRE_SLATE).
Proof. apply gradient_ends_and_order. lia. Defined.
